(** * Leaderboard: online and offline ranking of players

    A shallow embedding of [Leaderboard.cpp] / [PlayerStream.cpp] (the
    online ranker [Online::rankIncoming] with its heap helpers, and the
    offline selectors [Offline::heapRank] and [Offline::quickSelectRank]),
    followed by the properties of the specification that were checked
    against it.

    Conventions of the embedding
    - a [std::vector<Player>] is a [list Player]; iterators into it are
      positions ([nat]); [int] indices are [Z];
    - [size_t] counters are [N];
    - every element access is checked: an access outside the vector (or
      outside the iterator range a helper was given) yields
      [Err OutOfRange] instead of a value, so that a run ending in [Ok]
      performed no such access;
    - loops whose trip count is not syntactically evident carry a fuel
      argument; the entry points supply it and the theorems show it is
      never exhausted;
    - [elapsed_] (wall-clock time) is not part of the model. *)

From Stdlib Require Import ZArith Lia Floats Uint63.
From stdpp Require Import base numbers list sorting strings gmap.

Open Scope nat_scope.

(** ** Results of partial computations *)

Inductive fault : Type :=
  | ExhaustedSource   (* std::runtime_error thrown by a stream *)
  | OutOfRange        (* element access outside the vector or range *)
  | DivisionByZero    (* x % 0 *)
  | OutOfFuel.        (* the model's loop bound was too small *)

Inductive res (A : Type) : Type :=
  | Ok (a : A)
  | Err (f : fault).
Arguments Ok {A} a.
Arguments Err {A} f.

#[global] Instance res_bind : MBind res := λ A B k m,
  match m with
  | Ok a => k a
  | Err f => Err f
  end.

#[global] Instance res_ret : MRet res := λ A a, Ok a.

(** ** Players *)

(** Modelled from the spec: [Player.hpp] of the sorting project is not
    among the sources.  A Scored Record has a display name and a numeric
    rank key, and is "compared only by rankKey"; the code reads the two
    fields as [name_] and [level_], and stores [level_] in a
    [std::unordered_map<size_t, size_t>]. *)
Record Player : Type := mkPlayer { name_ : string; level_ : N }.

(** [a < b] and [a > b] on players. *)
Definition player_lt (a b : Player) : bool := (level_ a <? level_ b)%N.
Definition player_gt (a b : Player) : bool := (level_ b <? level_ a)%N.

(** ** Checked access to a range of a vector *)

(** [*it] for an iterator [it] that must lie in [[lo, hi)]. *)
Definition deref (v : list Player) (lo hi it : nat) : res Player :=
  if (lo <=? it) && (it <? hi)
  then match v !! it with Some p => Ok p | None => Err OutOfRange end
  else Err OutOfRange.

(** [std::iter_swap(a, b)]. *)
Definition iter_swap (v : list Player) (lo hi a b : nat) : res (list Player) :=
  x ← deref v lo hi a;
  y ← deref v lo hi b;
  Ok (<[a := y]> (<[b := x]> v)).

Module Online.

(** [Online::percolateDown], lines 78-89: the child of the current node to
    compare with.  [child] is the left child; when a right child exists
    ([child + 1 != end]) the larger (max) or smaller (min) of the two is
    taken.  The [&&] of the source short-circuits, so each orientation
    reads the two children in its own order. *)
Definition extremal_child (v : list Player) (start end_ : nat) (max : bool)
    (child : nat) : res nat :=
  if negb (child + 1 =? end_) then
    if max then
      c0 ← deref v start end_ child;
      c1 ← deref v start end_ (child + 1);
      Ok (if player_lt c0 c1 then child + 1 else child)
    else
      c1 ← deref v start end_ (child + 1);
      c0 ← deref v start end_ child;
      Ok (if player_lt c1 c0 then child + 1 else child)
  else Ok child.

(** [Online::percolateDown]: the [while] loop.  [itr] is the current
    position, [i] its distance from [start], [temp] the value read at
    [root] on entry. *)
Fixpoint percolate_loop (fuel : nat) (v : list Player) (start end_ : nat)
    (max : bool) (temp : Player) (itr i : nat) : res (list Player) :=
  if 2 * i + 1 <? end_ - start then
    match fuel with
    | 0 => Err OutOfFuel
    | S fuel' =>
      child ← extremal_child v start end_ max (start + 2 * i + 1);
      cv ← deref v start end_ child;
      let continue :=
        v' ← iter_swap v start end_ itr child;
        percolate_loop fuel' v' start end_ max temp child (child - start) in
      if max && player_gt cv temp then continue
      else if negb max && player_lt cv temp then continue
      else Ok v
    end
  else Ok v.

Definition percolateDown (v : list Player) (root start end_ : nat)
    (max : bool) : res (list Player) :=
  temp ← deref v start end_ root;
  percolate_loop (end_ - start) v start end_ max temp root (root - start).

(** [Online::replaceMin(first, last, target)]. *)
Definition replaceMin (v : list Player) (first last : nat) (target : Player)
    : res (list Player) :=
  _ ← deref v first last first;
  percolateDown (<[first := target]> v) first first last false.



End Online.

(** ** Heap order *)

Definition key (v : list Player) (p : nat) : N :=
  match v !! p with Some x => level_ x | None => 0%N end.

(** [above max x y]: a record of key [x] may be the parent of one of key
    [y] (max: parent ≥ child; min: parent ≤ child). *)
Definition above (max : bool) (x y : N) : Prop :=
  if max then (y ≤ x)%N else (x ≤ y)%N.

(** Node [p] (an offset from [start]) is in order with the children it
    has inside [[start, end_)]. *)
Definition node_ok (max : bool) (v : list Player) (start end_ p : nat) : Prop :=
  (2 * p + 1 < end_ - start →
     above max (key v (start + p)) (key v (start + 2 * p + 1))) ∧
  (2 * p + 2 < end_ - start →
     above max (key v (start + p)) (key v (start + 2 * p + 2))).

Definition heap_ordered (max : bool) (v : list Player) (start end_ : nat) : Prop :=
  ∀ p, node_ok max v start end_ p.

(** Heap-ordered everywhere except possibly at [root]. *)
Definition heap_ordered_except (max : bool) (v : list Player)
    (start end_ root : nat) : Prop :=
  ∀ p, start + p ≠ root → node_ok max v start end_ p.

(** ** The standard algorithms the rankers call *)

(** The comparison objects handed to the heap algorithms:
    [std::less<Player>] and [std::greater<Player>]. *)
Inductive Compare : Type := less | greater.


(** A range is a heap with respect to [c] when no parent compares
    [c]-before a child: a max-heap for [less], a min-heap for [greater]. *)
Definition orientation (c : Compare) : bool :=
  match c with less => true | greater => false end.

Definition is_heap (c : Compare) (v : list Player) : Prop :=
  heap_ordered (orientation c) v 0 (length v).


Definition key_le (a b : Player) : Prop := (level_ a ≤ level_ b)%N.

(** [std::make_heap], [std::pop_heap] and [std::sort] are library code.
    The C++ standard fixes what they establish, not the arrangement they
    pick among equally valid ones, so the model takes any implementation
    that meets the standard's postconditions. *)
Class StdAlgorithms : Type := {
  make_heap : Compare → list Player → list Player;
  pop_heap : Compare → list Player → list Player;
  sort : list Player → list Player;
  make_heap_perm c v : make_heap c v ≡ₚ v;
  make_heap_is_heap c v : is_heap c (make_heap c v);
  (* on a non-empty heap: the first element goes last, the others form a heap *)
  pop_heap_spec c x v :
    is_heap c (x :: v) →
    ∃ v', pop_heap c (x :: v) = v' ++ [x] ∧ v' ≡ₚ v ∧ is_heap c v';
  sort_perm v : sort v ≡ₚ v;
  sort_sorted v : Sorted key_le (sort v);
}.

(** ** Player streams *)

(** Modelled from the spec: [PlayerStream.hpp] is not among the sources.
    The interface [PlayerStream] (the Pull Sequence of the specification)
    has [remaining()] and [nextPlayer()], the latter either returning a
    player and advancing the stream or failing. *)
Class PlayerStream (Stm : Type) : Type := {
  remaining : Stm → N;
  nextPlayer : Stm → res (Player * Stm);
}.

(** The Pull Sequence contract of the specification. *)
Class PullSequence (Stm : Type) `{PlayerStream Stm} : Prop := {
  next_exhausted s : nextPlayer s = Err ExhaustedSource ↔ remaining s = 0%N;
  next_advances s :
    remaining s ≠ 0%N →
    ∃ p s', nextPlayer s = Ok (p, s') ∧ remaining s = (remaining s' + 1)%N;
}.

(** [VectorPlayerStream]: a copy of the vector and a cursor.  The
    constructor sets [current_] to 0 and [nextPlayer] advances it only
    while it is below the size, so [size - current_] never wraps; [N]'s
    truncated subtraction agrees with it on every such state. *)
Record VectorPlayerStream : Type := mkVectorPlayerStream {
  players_ : list Player;
  current_ : N;
}.

Definition VectorPlayerStream_new (players : list Player) : VectorPlayerStream :=
  {| players_ := players; current_ := 0 |}.

Definition vector_remaining (s : VectorPlayerStream) : N :=
  (N.of_nat (length (players_ s)) - current_ s)%N.

Definition vector_nextPlayer (s : VectorPlayerStream)
    : res (Player * VectorPlayerStream) :=
  if (0 <? vector_remaining s)%N then
    let s' := {| players_ := players_ s; current_ := (current_ s + 1)%N |} in
    match players_ s' !! N.to_nat (current_ s' - 1) with
    | Some p => Ok (p, s')
    | None => Err OutOfRange
    end
  else Err ExhaustedSource.

#[global] Instance vector_stream : PlayerStream VectorPlayerStream :=
  {| remaining := vector_remaining; nextPlayer := vector_nextPlayer |}.

(** A stream wrapped so that a pull at [remaining() == 0] fails with
    [ExhaustedSource] whatever the wrapped stream would have done. *)
Record Guarded (Stm : Type) : Type := guard { unguard : Stm }.
Arguments guard {Stm} _.
Arguments unguard {Stm} _.

#[global] Instance guarded_stream {Stm : Type} `{PlayerStream Stm}
    : PlayerStream (Guarded Stm) := {|
  remaining g := remaining (unguard g);
  nextPlayer g :=
    if (remaining (unguard g) =? 0)%N then Err ExhaustedSource
    else '(p, s') ← nextPlayer (unguard g); Ok (p, guard s');
|}.

(** ** Ranking results *)

Record RankingResult : Type := mkRankingResult {
  top_ : list Player;
  cutoffs_ : gmap N N;
}.

(** [std::unordered_map::insert]: an existing entry is kept. *)
Definition insert_cutoff (k x : N) (m : gmap N N) : gmap N N :=
  match m !! k with
  | Some _ => m
  | None => <[k := x]> m
  end.

(** ** The online ranker *)

Section rankIncoming.
Context `{StdAlgorithms} {Stm : Type} `{PlayerStream Stm}.

(** The state the loop of [rankIncoming] carries besides the stream:
    [read], [min_top] and [cutoffs_]. *)
Definition rank_state : Type := N * list Player * gmap N N.

(** Lines 158-190: what the loop does to [min_top] once [read] has been
    incremented. *)
Definition update_min_top (reporting_interval read : N)
    (current_player : Player) (min_top : list Player) : res (list Player) :=
  if (read <? reporting_interval)%N then
    Ok (min_top ++ [current_player])
  else if (read =? reporting_interval)%N then
    Ok (make_heap greater (min_top ++ [current_player]))
  else
    front ← deref min_top 0 (length min_top) 0;
    if (level_ front <=? level_ current_player)%N then
      Online.replaceMin min_top 0 (length min_top) current_player
    else Ok min_top.

(** Lines 192-194: the cutoff recorded at a multiple of the interval. *)
Definition record_cutoff (reporting_interval read : N)
    (min_top : list Player) (cutoffs : gmap N N) : res (gmap N N) :=
  if (reporting_interval =? 0)%N then Err DivisionByZero
  else if (read mod reporting_interval =? 0)%N
          && negb (bool_decide (min_top = [])) then
    m0 ← deref min_top 0 (length min_top) 0;
    Ok (insert_cutoff read (level_ m0) cutoffs)
  else Ok cutoffs.

(** The loop body, after [current_player] has been pulled. *)
Definition rank_step (reporting_interval : N) (current_player : Player)
    (st : rank_state) : res rank_state :=
  let '(read, min_top, cutoffs) := st in
  let read := (read + 1)%N in
  min_top ← update_min_top reporting_interval read current_player min_top;
  cutoffs ← record_cutoff reporting_interval read min_top cutoffs;
  Ok (read, min_top, cutoffs).

Fixpoint rank_loop (fuel : nat) (reporting_interval : N) (stream : Stm)
    (st : rank_state) : res (Stm * rank_state) :=
  if (0 <? remaining stream)%N then
    match fuel with
    | 0 => Err OutOfFuel
    | S fuel' =>
      '(current_player, stream) ← nextPlayer stream;
      st ← rank_step reporting_interval current_player st;
      rank_loop fuel' reporting_interval stream st
    end
  else Ok (stream, st).

(** [Online::rankIncoming].  The stream is taken by reference, so its
    final state is returned next to the result.  On a stream that keeps
    the Pull Sequence contract the loop runs [remaining()] times, which is
    the fuel it is given. *)
Definition rankIncoming (stream : Stm) (reporting_interval : N)
    : res (RankingResult * Stm) :=
  '(stream, (read, min_top, cutoffs)) ←
    rank_loop (N.to_nat (remaining stream)) reporting_interval stream (0%N, [], ∅);
  m0 ← deref min_top 0 (length min_top) 0;
  let cutoffs := insert_cutoff read (level_ m0) cutoffs in
  let min_top := sort min_top in
  Ok ({| top_ := min_top; cutoffs_ := cutoffs |}, stream).

End rankIncoming.

(** ** The offline selectors *)

Module Offline.

(** [int] is 32 bits wide.  [to_int] is the conversion of an integer
    value to [int] (modular, as for [size_t] to [int]). *)
Definition INT_MAX : Z := 2 ^ 31 - 1.

Definition to_int (z : Z) : Z := ((z + 2 ^ 31) mod 2 ^ 32 - 2 ^ 31)%Z.

(** [int top_10 = std::floor(0.1 * players.size())].  The product is
    computed in [double]; for sizes in the range of [int] the rounding of
    [0.1 * n] never crosses an integer, so the floor is the integer
    quotient [n / 10], which is what the model computes. *)
Definition top_count (size : nat) : Z := to_int (Z.of_nat size / 10).

(** The same computation carried out in binary64, to compare with
    [top_count]: the floor of a non-negative finite double, and
    [floor(0.1 * n)] with [0.1] the double nearest to one tenth. *)
Definition floor_double (f : float) : Z :=
  match Prim2SF f with
  | S754_finite false m e =>
    if (0 <=? e)%Z then (Z.pos m * 2 ^ e)%Z else (Z.pos m / 2 ^ (- e))%Z
  | _ => 0%Z
  end.

Definition double_top_count (size : Z) : Z :=
  floor_double
    (PrimFloat.mul 0x1.999999999999ap-4%float
       (PrimFloat.of_uint63 (Uint63.of_Z size))).

(** [players.size() - 1], computed in [size_t] and passed as an [int]. *)
Definition last_index (size : nat) : Z := to_int ((Z.of_nat size - 1) mod 2 ^ 64).

(** [array[i]]: the index is converted to [size_t], so a negative [int]
    is as much out of range as one past the size. *)
Definition at_ (array : list Player) (i : Z) : res Player :=
  if (0 <=? i)%Z then
    match array !! Z.to_nat i with Some p => Ok p | None => Err OutOfRange end
  else Err OutOfRange.

(** [std::swap(array[i], array[j])]. *)
Definition swap (array : list Player) (i j : Z) : res (list Player) :=
  x ← at_ array i;
  y ← at_ array j;
  Ok (<[Z.to_nat i := y]> (<[Z.to_nat j := x]> array)).

(** [Offline::heapify]: the [while (true)] loop.  The source computes
    [2 * i + 1] and [2 * i + 2] in [int]; the model computes them in [Z].
    The two agree exactly when [2 * i + 2] fits an [int], which holds for
    every index of a vector of fewer than [2 ^ 30] records; past that the
    source's arithmetic overflows and this loop is no account of it:
    [heapify_loop_int] below is.  The properties of [heapify] are stated
    for [i < end <= size]. *)
Fixpoint heapify_loop (fuel : nat) (heap : list Player) (i end_ : Z)
    : res (list Player) :=
  match fuel with
  | 0 => Err OutOfFuel
  | S fuel' =>
    let j := i in
    let left_i := (2 * i + 1)%Z in
    let right_i := (2 * i + 2)%Z in
    j ← (if (left_i <? end_)%Z then
           hl ← at_ heap left_i;
           hj ← at_ heap j;
           Ok (if player_gt hl hj then left_i else j)
         else Ok j);
    j ← (if (right_i <? end_)%Z then
           hr ← at_ heap right_i;
           hj ← at_ heap j;
           Ok (if player_gt hr hj then right_i else j)
         else Ok j);
    if negb (j =? i)%Z then
      heap ← swap heap i j;
      heapify_loop fuel' heap j end_
    else Ok heap
  end.

(** The loop moves [i] to a child at every turn but the last, so
    [end - i] turns and one more are enough. *)
Definition heapify (heap : list Player) (i end_ : Z) : res (list Player) :=
  heapify_loop (S (Z.to_nat (end_ - i))) heap i end_.

(** The same loop with the child indices computed as the source computes
    them, in [int]: [to_int] is the 32-bit result, an overflow taken to
    wrap as the compiled code does.  A wrapped index is negative, passes
    the test against [end] and is then used to read the vector. *)
Fixpoint heapify_loop_int (fuel : nat) (heap : list Player) (i end_ : Z)
    : res (list Player) :=
  match fuel with
  | 0 => Err OutOfFuel
  | S fuel' =>
    let j := i in
    let left_i := to_int (2 * i + 1) in
    let right_i := to_int (2 * i + 2) in
    j ← (if (left_i <? end_)%Z then
           hl ← at_ heap left_i;
           hj ← at_ heap j;
           Ok (if player_gt hl hj then left_i else j)
         else Ok j);
    j ← (if (right_i <? end_)%Z then
           hr ← at_ heap right_i;
           hj ← at_ heap j;
           Ok (if player_gt hr hj then right_i else j)
         else Ok j);
    if negb (j =? i)%Z then
      heap ← swap heap i j;
      heapify_loop_int fuel' heap j end_
    else Ok heap
  end.

Definition heapify_int (heap : list Player) (i end_ : Z) : res (list Player) :=
  heapify_loop_int (S (Z.to_nat (end_ - i))) heap i end_.

Section heapRank.
Context `{StdAlgorithms}.

(** The [for] loop of [heapRank]: [count] iterations remain, [i] is the
    loop counter; [players.end() - i] must leave a non-empty range. *)
Fixpoint pop_loop (count : nat) (i : Z) (players : list Player)
    : res (list Player) :=
  match count with
  | 0 => Ok players
  | S count' =>
    let last := (Z.of_nat (length players) - i)%Z in
    if (0 <? last)%Z && (last <=? Z.of_nat (length players))%Z then
      let players :=
        pop_heap less (take (Z.to_nat last) players)
          ++ drop (Z.to_nat last) players in
      pop_loop count' (i + 1)%Z players
    else Err OutOfRange
  end.

(** [Offline::heapRank].  The vector is taken by reference, so its final
    state is returned next to the result. *)
Definition heapRank (players : list Player) : res (RankingResult * list Player) :=
  if length players <=? 1 then
    Ok ({| top_ := players; cutoffs_ := ∅ |}, players)
  else
    let top_10 := top_count (length players) in
    let players := make_heap less players in
    players ← pop_loop (Z.to_nat top_10) 0 players;
    let first := (Z.of_nat (length players) - top_10)%Z in
    if (0 <=? first)%Z && (first <=? Z.of_nat (length players))%Z then
      Ok ({| top_ := drop (Z.to_nat first) players; cutoffs_ := ∅ |}, players)
    else Err OutOfRange.

End heapRank.

(** [Offline::lomuto_partition]: the [for] loop, with [trips] iterations
    remaining. *)
Fixpoint lomuto_loop (trips : nat) (array : list Player) (i j pivot : Z)
    : res (list Player * Z) :=
  match trips with
  | 0 => Ok (array, i)
  | S trips' =>
    aj ← at_ array j;
    ap ← at_ array pivot;
    if player_gt aj ap then
      array ← swap array i j;
      lomuto_loop trips' array (i + 1)%Z (j + 1)%Z pivot
    else lomuto_loop trips' array i (j + 1)%Z pivot
  end.

Definition lomuto_partition (array : list Player) (low high pivot : Z)
    : res (list Player * Z) :=
  '(array, i) ← lomuto_loop (Z.to_nat (high - low)) array low low pivot;
  array ← swap array pivot i;
  Ok (array, i).

(** [Offline::hoare_partition]: [do { i++; } while (array[i] < pivot_value
    && i <= high);] -- the element is read before the bound is tested. *)
Fixpoint scan_up (fuel : nat) (array : list Player) (pivot_value : Player)
    (i high : Z) : res Z :=
  match fuel with
  | 0 => Err OutOfFuel
  | S fuel' =>
    let i := (i + 1)%Z in
    ai ← at_ array i;
    if player_lt ai pivot_value && (i <=? high)%Z
    then scan_up fuel' array pivot_value i high
    else Ok i
  end.

(** [do { j--; } while (array[j] > pivot_value && j >= low);] *)
Fixpoint scan_down (fuel : nat) (array : list Player) (pivot_value : Player)
    (j low : Z) : res Z :=
  match fuel with
  | 0 => Err OutOfFuel
  | S fuel' =>
    let j := (j - 1)%Z in
    aj ← at_ array j;
    if player_gt aj pivot_value && (low <=? j)%Z
    then scan_down fuel' array pivot_value j low
    else Ok j
  end.

(** The [while (true)] loop of [hoare_partition].  The scans and the loop
    are given the width of the range plus 3 steps, more than they take. *)
Fixpoint hoare_loop (fuel : nat) (array : list Player) (pivot_value : Player)
    (i j low high : Z) : res (list Player * Z) :=
  match fuel with
  | 0 => Err OutOfFuel
  | S fuel' =>
    i ← scan_up (Z.to_nat (high - low + 3)) array pivot_value i high;
    j ← scan_down (Z.to_nat (high - low + 3)) array pivot_value j low;
    if (j <? i)%Z then Ok (array, j)
    else
      array ← swap array i j;
      hoare_loop fuel' array pivot_value i j low high
  end.

Definition hoare_partition (array : list Player) (low high pivot : Z)
    : res (list Player * Z) :=
  pivot_value ← at_ array pivot;
  hoare_loop (Z.to_nat (high - low + 3)) array pivot_value
    (low - 1)%Z (high + 1)%Z low high.

(** [Offline::quickSelect]; [fuel] bounds the depth of the recursion. *)
Fixpoint quickSelect (fuel : nat) (array : list Player) (low high k : Z)
    : res (list Player) :=
  if (low <=? high)%Z && (0 <=? low)%Z then
    match fuel with
    | 0 => Err OutOfFuel
    | S fuel' =>
      '(array, index) ← lomuto_partition array low high high;
      if (index <? k)%Z then quickSelect fuel' array (index + 1)%Z high k
      else quickSelect fuel' array low (index - 1)%Z k
    end
  else Ok array.

(** [Offline::quickSort]. *)
Fixpoint quickSort (fuel : nat) (array : list Player) (low high : Z)
    : res (list Player) :=
  if (low <? high)%Z && (0 <=? low)%Z then
    match fuel with
    | 0 => Err OutOfFuel
    | S fuel' =>
      '(array, pivot) ← hoare_partition array low high high;
      array ← quickSort fuel' array low pivot;
      quickSort fuel' array (pivot + 1)%Z high
    end
  else Ok array.

(** [Offline::quickSelectRank]. *)
Definition quickSelectRank (players : list Player)
    : res (RankingResult * list Player) :=
  let top_10 := top_count (length players) in
  players ← quickSelect (S (length players)) players 0
              (last_index (length players)) top_10;
  players ← quickSort (S (length players)) players 0 (top_10 - 1)%Z;
  if (0 <=? top_10)%Z && (top_10 <=? Z.of_nat (length players))%Z then
    Ok ({| top_ := take (Z.to_nat top_10) players; cutoffs_ := ∅ |}, players)
  else Err OutOfRange.

End Offline.

(** The records a stream yields before it is exhausted, and the run of
    the loop body over a list of records. *)
Fixpoint drain {Stm : Type} `{PlayerStream Stm} (fuel : nat) (s : Stm)
    : list Player :=
  match fuel with
  | 0 => []
  | S fuel' =>
    match nextPlayer s with
    | Ok (p, s') => p :: drain fuel' s'
    | Err _ => []
    end
  end.

Definition streamed {Stm : Type} `{PlayerStream Stm} (s : Stm) : list Player :=
  drain (N.to_nat (remaining s)) s.

Fixpoint rank_steps `{StdAlgorithms} (reporting_interval : N)
    (l : list Player) (st : rank_state) : res rank_state :=
  match l with
  | [] => Ok st
  | p :: l =>
    st ← rank_step reporting_interval p st;
    rank_steps reporting_interval l st
  end.

(** ** Reference points of the specification *)

(** The [k] largest keys of a list of keys, in ascending order. *)
Definition largest (k : nat) (ks : list N) : list N :=
  drop (length ks - k) (merge_sort N.le ks).

(** The keys of a vector of players. *)
Definition keys (v : list Player) : list N := level_ <$> v.

(** Example players: only the key matters to the rankers. *)
Definition pl (k : N) : Player := mkPlayer "p" k.

(** ** Vocabulary of the proofs *)

#[global] Instance above_dec max x y : Decision (above max x y).
Proof. destruct max; simpl; apply _. Defined.

#[global] Instance key_le_dec : RelDecision key_le.
Proof. intros a b. unfold key_le. apply _. Defined.


(** One implementation of the standard algorithms, used where a concrete
    one is needed: sorting by key yields a heap. *)
Definition reference_make_heap (c : Compare) (v : list Player) : list Player :=
  match c with
  | greater => merge_sort key_le v
  | less => reverse (merge_sort key_le v)
  end.

Definition reference_pop_heap (c : Compare) (v : list Player) : list Player :=
  match v with
  | [] => []
  | x :: v => reference_make_heap c v ++ [x]
  end.

(** What holds of [read], [min_top] and [cutoffs_] once the records
    [seen] have been processed. *)
Record rank_inv (ri : N) (seen : list Player) (read : N) (min_top : list Player)
    (cutoffs : gmap N N) : Prop := {
  inv_read : read = N.of_nat (length seen);
  inv_filling : (read < ri)%N → min_top = seen ∧ cutoffs = ∅;
  inv_heap : (ri ≤ read)%N →
    is_heap greater min_top ∧ length min_top = N.to_nat ri;
  inv_top : ∃ rest, seen ≡ₚ rest ++ min_top ∧
    ∀ x y, x ∈ rest → y ∈ min_top → key_le x y;
  inv_cut_bound : ∀ m c, cutoffs !! m = Some c →
    (ri ≤ m ≤ read)%N ∧ (c ≤ key min_top 0)%N;
  inv_cut_mono : ∀ m1 m2 c1 c2,
    cutoffs !! m1 = Some c1 → cutoffs !! m2 = Some c2 → (m1 < m2)%N →
    (c1 ≤ c2)%N;
  inv_cut_last : ∀ c, cutoffs !! read = Some c → c = key min_top 0;
}.

(** The cutoff of the population seen at a milestone: the smallest of the
    [ri] largest keys among the first [m] records of [seen]. *)
Definition milestone_cutoff (ri m : N) (seen : list Player) : option N :=
  head (largest (N.to_nat ri) (keys (take (N.to_nat m) seen))).

(** The entries of [cutoffs_] during the loop: one per multiple of the
    interval reached so far, each the milestone cutoff of its time. *)
Definition cutoffs_exact (ri : N) (seen : list Player) (read : N)
    (cutoffs : gmap N N) : Prop :=
  ∀ m, cutoffs !! m =
    if decide ((ri ≤ m ≤ read)%N ∧ (m mod ri = 0)%N)
    then milestone_cutoff ri m seen else None.

(** Arrays indexed by [int]. *)
Definition zlook (a : list Player) (i : Z) : option Player :=
  if (0 <=? i)%Z then a !! Z.to_nat i else None.

Definition zkey (a : list Player) (i : Z) : N :=
  match zlook a i with Some p => level_ p | None => 0%N end.

(** [a'] rearranges [a] inside [[low, high]] and nowhere else. *)
Record range_perm (a a' : list Player) (low high : Z) : Prop := {
  rp_length : length a' = length a;
  rp_perm : a' ≡ₚ a;
  rp_frame : ∀ z, ¬ (low ≤ z ≤ high)%Z → zlook a' z = zlook a z;
  rp_inside : ∀ y, (low ≤ y ≤ high)%Z →
    ∃ z, (low ≤ z ≤ high)%Z ∧ zlook a' y = zlook a z;
}.

(** Everything left of [low] is at least everything from [low] on, and
    everything right of [high] is at most everything up to [high]. *)
Definition selecting (a : list Player) (low high : Z) : Prop :=
  (∀ x y, (0 ≤ x < low)%Z → (low ≤ y < Z.of_nat (length a))%Z →
          (zkey a y ≤ zkey a x)%N) ∧
  (∀ x y, (0 ≤ x ≤ high)%Z → (high < y < Z.of_nat (length a))%Z →
          (zkey a y ≤ zkey a x)%N).

(** The first [k] positions hold [k] largest records. *)
Definition top_first (a : list Player) (k : Z) : Prop :=
  ∀ x y, (0 ≤ x < k)%Z → (k ≤ y < Z.of_nat (length a))%Z →
         (zkey a y ≤ zkey a x)%N.

(** Populations used to exercise the selectors. *)
Definition ten_players : list Player :=
  pl <$> [1; 2; 3; 4; 5; 6; 7; 8; 9; 10]%N.

Definition twenty_players : list Player :=
  pl <$> [1; 2; 3; 4; 5; 6; 7; 8; 9; 10; 11; 12; 13; 14; 15; 16; 17; 18; 19; 20]%N.

(** * Properties *)

(** ** Vectors: checked access and swaps *)

Lemma deref_Ok v lo hi it :
  lo ≤ it → it < hi → hi ≤ length v →
  ∃ x, v !! it = Some x ∧ deref v lo hi it = Ok x.
Proof.
  intros H1 H2 H3. unfold deref.
  destruct (lookup_lt_is_Some_2 v it) as [x Hx]; [lia|].
  exists x. split; [done|].
  rewrite Hx.
  destruct (Nat.leb_spec lo it); [|lia].
  destruct (Nat.ltb_spec it hi); [done|lia].
Qed.

Lemma swap_lookup (v : list Player) a b x y p :
  v !! a = Some x → v !! b = Some y →
  <[a := y]> (<[b := x]> v) !! p =
    if decide (p = a) then Some y else if decide (p = b) then Some x else v !! p.
Proof.
  intros Ha Hb.
  apply lookup_lt_Some in Ha as Hla. apply lookup_lt_Some in Hb as Hlb.
  destruct (decide (p = a)) as [->|Hpa].
  - rewrite list_lookup_insert_eq; [done|]. by rewrite length_insert.
  - rewrite list_lookup_insert_ne; [|done].
    destruct (decide (p = b)) as [->|Hpb].
    + by rewrite list_lookup_insert_eq.
    + by rewrite list_lookup_insert_ne.
Qed.

Lemma swap_Permutation (v : list Player) a b x y :
  v !! a = Some x → v !! b = Some y →
  <[a := y]> (<[b := x]> v) ≡ₚ v.
Proof.
  intros Ha Hb.
  apply Permutation_inj. split; [by rewrite !length_insert|].
  exists (λ p, if decide (p = a) then b else if decide (p = b) then a else p).
  split.
  - intros p q. repeat case_decide; intros; simplify_eq; done.
  - intros p. rewrite (swap_lookup v a b x y p Ha Hb).
    repeat case_decide; simplify_eq; done.
Qed.

Lemma key_swap (v : list Player) a b x y p :
  v !! a = Some x → v !! b = Some y →
  key (<[a := y]> (<[b := x]> v)) p =
    if decide (p = a) then level_ y else if decide (p = b) then level_ x else key v p.
Proof.
  intros Ha Hb. unfold key. rewrite (swap_lookup v a b x y p Ha Hb).
  repeat case_decide; done.
Qed.

Lemma key_lookup (v : list Player) p x : v !! p = Some x → key v p = level_ x.
Proof. unfold key. by intros ->. Qed.



Lemma above_refl max x : above max x x.
Proof. destruct max; simpl; lia. Qed.

Lemma above_trans max x y z : above max x y → above max y z → above max x z.
Proof. destruct max; simpl; lia. Qed.

Lemma above_total max x y : above max x y ∨ above max y x.
Proof. destruct max; simpl; lia. Qed.

(** ** percolateDown *)

Section percolate.
Context (max : bool) (start end_ : nat).

Lemma extremal_child_spec v c :
  start ≤ c → c < end_ → end_ ≤ length v →
  ∃ m, Online.extremal_child v start end_ max c = Ok m ∧
       (m = c ∨ (m = c + 1 ∧ c + 1 < end_)) ∧
       above max (key v m) (key v c) ∧
       (c + 1 < end_ → above max (key v m) (key v (c + 1))).
Proof.
  intros H1 H2 H3. unfold Online.extremal_child.
  destruct (Nat.eqb_spec (c + 1) end_) as [Heq|Hne]; simpl.
  - exists c. split; [done|]. split; [by left|].
    split; [apply above_refl | lia].
  - destruct (deref_Ok v start end_ c) as (x0 & Hx0 & ->); [lia..|].
    destruct (deref_Ok v start end_ (c + 1)) as (x1 & Hx1 & ->); [lia..|].
    pose proof (key_lookup _ _ _ Hx0) as K0.
    pose proof (key_lookup _ _ _ Hx1) as K1.
    unfold player_lt, above.
    destruct max; simpl.
    + destruct (N.ltb_spec (level_ x0) (level_ x1)).
      * exists (c + 1). rewrite K0, K1. repeat split; try lia.
      * exists c. rewrite K0, K1. repeat split; try lia.
    + destruct (N.ltb_spec (level_ x1) (level_ x0)).
      * exists (c + 1). rewrite K0, K1. repeat split; try lia.
      * exists c. rewrite K0, K1. repeat split; try lia.
Qed.

Lemma percolate_loop_unfold fuel v temp itr i :
  Online.percolate_loop (S fuel) v start end_ max temp itr i =
  if 2 * i + 1 <? end_ - start then
    child ← Online.extremal_child v start end_ max (start + 2 * i + 1);
    cv ← deref v start end_ child;
    let continue :=
      v' ← iter_swap v start end_ itr child;
      Online.percolate_loop fuel v' start end_ max temp child (child - start) in
    if max && player_gt cv temp then continue
    else if negb max && player_lt cv temp then continue
    else Ok v
  else Ok v.
Proof. reflexivity. Qed.

(** The two tests of the source, taken together, ask whether the child is
    strictly more extremal than [temp]. *)
Lemma sink_test (A : Type) (cv temp : Player) (k e : A) :
  (if max && player_gt cv temp then k
   else if negb max && player_lt cv temp then k else e) =
  (if decide (above max (level_ temp) (level_ cv)) then e else k).
Proof.
  unfold player_gt, player_lt, above.
  destruct max; simpl.
  - destruct (N.ltb_spec (level_ temp) (level_ cv)); case_decide; (done || lia).
  - destruct (N.ltb_spec (level_ cv) (level_ temp)); case_decide; (done || lia).
Qed.

Lemma percolate_loop_spec temp : ∀ fuel v i,
  end_ ≤ length v → start + i < end_ → end_ - start - i ≤ fuel →
  v !! (start + i) = Some temp →
  (∀ p, i < p → node_ok max v start end_ p) →
  ∃ v', Online.percolate_loop fuel v start end_ max temp (start + i) i = Ok v' ∧
    length v' = length v ∧ v' ≡ₚ v ∧
    (∀ q, q ≠ start + i → q < start + 2 * i + 1 ∨ end_ ≤ q → v' !! q = v !! q) ∧
    (∀ p, i ≤ p → node_ok max v' start end_ p) ∧
    (∀ x, above max x (level_ temp) →
       (2 * i + 1 < end_ - start → above max x (key v (start + 2 * i + 1))) →
       (2 * i + 2 < end_ - start → above max x (key v (start + 2 * i + 2))) →
       above max x (key v' (start + i))).
Proof.
  induction fuel as [|fuel IH]; intros v i Hlen Hi Hfuel Htemp Hbelow; [lia|].
  rewrite percolate_loop_unfold.
  destruct (Nat.ltb_spec (2 * i + 1) (end_ - start)) as [Hc|Hc]; cycle 1.
  { exists v. split_and!; try done.
    - intros p Hp. assert (i < p ∨ p = i) as [? | ->] by lia;
        [by apply (Hbelow p)|split; lia].
    - intros x Hx _ _. by rewrite (key_lookup _ _ _ Htemp). }
  destruct (extremal_child_spec v (start + 2 * i + 1)) as (m & -> & Hm & Hm0 & Hm1);
    [lia..|].
  simpl.
  destruct (deref_Ok v start end_ m) as (cv & Hcv & ->); [lia..|].
  simpl. rewrite sink_test.
  destruct (decide (above max (level_ temp) (level_ cv))) as [Hstop|Hsink].
  { (* no swap: the loop ends here *)
    exists v. split_and!; try done.
    - intros p Hp. assert (p = i ∨ i < p) as [-> | ?] by lia; [|by apply (Hbelow p)].
      rewrite <- (key_lookup _ _ _ Hcv) in Hstop.
      split; intros Hr; rewrite (key_lookup _ _ _ Htemp);
        (apply above_trans with (key v m); [done|]); [done|].
      replace (start + 2 * i + 2) with (start + 2 * i + 1 + 1) by lia.
      apply Hm1. lia.
    - intros x Hx _ _. by rewrite (key_lookup _ _ _ Htemp). }
  (* swap with the child and continue from it *)
  unfold iter_swap.
  destruct (deref_Ok v start end_ (start + i)) as (t & Ht & ->); [lia..|].
  assert (t = temp) as -> by congruence.
  destruct (deref_Ok v start end_ m) as (cv' & Hcv' & ->); [lia..|].
  assert (cv' = cv) as -> by congruence. simpl.
  set (v1 := <[start + i := cv]> (<[m := temp]> v)).
  assert (Hv1 : ∀ q, v1 !! q =
    if decide (q = start + i) then Some cv
    else if decide (q = m) then Some temp else v !! q).
  { intros q. by apply swap_lookup. }
  assert (Hk1 : ∀ q, key v1 q =
    if decide (q = start + i) then level_ cv
    else if decide (q = m) then level_ temp else key v q).
  { intros q. by apply key_swap. }
  assert (Hmi : ∃ i', m = start + i' ∧ (i' = 2 * i + 1 ∨ i' = 2 * i + 2) ∧
                     start + i' < end_).
  { exists (m - start). lia. }
  destruct Hmi as (i' & -> & Hi' & Hi'lt).
  replace (start + i' - start) with i' by lia.
  destruct (IH v1 i') as (v' & Hrun & Hlen' & Hperm' & Hframe' & Hnodes' & Hlow').
  { unfold v1. by rewrite !length_insert. }
  { done. }
  { lia. }
  { rewrite Hv1. repeat case_decide; (done || lia). }
  { intros p Hp. destruct (Hbelow p) as [Hb1 Hb2]; [lia|].
    split; intros Hr; rewrite !Hk1; repeat case_decide; try lia; auto. }
  assert (Hkcv : level_ cv = key v (start + i')).
  { by rewrite (key_lookup _ _ _ Hcv). }
  assert (Hkeep : ∀ q, q ≠ start + i → q ≠ start + i' →
                       q < start + 2 * i' + 1 ∨ end_ ≤ q → key v' q = key v q).
  { intros q ???. unfold key at 1. rewrite Hframe' by done.
    fold (key v1 q). rewrite Hk1. repeat case_decide; (done || lia). }
  assert (Hroot : key v' (start + i) = key v (start + i')).
  { unfold key at 1. rewrite Hframe' by lia. fold (key v1 (start + i)).
    rewrite Hk1. by case_decide. }
  assert (Hsink' : above max (key v (start + i')) (level_ temp)).
  { rewrite <- Hkcv. destruct (above_total max (level_ cv) (level_ temp)); done. }
  exists v'. split; [done|]. split; [unfold v1 in *; by rewrite Hlen', !length_insert|].
  split; [etrans; [done|]; by apply swap_Permutation|].
  split; [|split].
  - intros q Hq Hq'. rewrite Hframe'; [|lia..].
    rewrite Hv1. repeat case_decide; (done || lia).
  - intros p Hp.
    assert (i' ≤ p ∨ p = i ∨ (i < p ∧ p < i')) as [Hge | [-> | Hmid]] by lia.
    + by apply Hnodes'.
    + (* the node the loop started from now holds the old child *)
      assert (Hnew : above max (key v (start + i')) (key v' (start + i'))).
      { destruct (Hbelow i') as [Hb1 Hb2]; [lia|].
        apply Hlow'; [done|..]; intros Hr; rewrite Hk1;
          repeat case_decide; try lia; auto. }
      split; intros Hr; rewrite Hroot.
      * destruct (decide (i' = 2 * i + 1)) as [-> | Hne].
        -- by replace (start + 2 * i + 1) with (start + (2 * i + 1)) by lia.
        -- rewrite Hkeep by lia. exact Hm0.
      * destruct (decide (i' = 2 * i + 2)) as [-> | Hne].
        -- by replace (start + 2 * i + 2) with (start + (2 * i + 2)) by lia.
        -- rewrite Hkeep by lia.
           replace (start + 2 * i + 2) with (start + 2 * i + 1 + 1) by lia.
           apply Hm1. lia.
    + destruct (Hbelow p) as [Hb1 Hb2]; [lia|].
      split; intros Hr; rewrite !Hkeep by lia; auto.
  - intros x Hx Hx1 Hx2. rewrite Hroot.
    destruct Hi' as [-> | ->].
    + replace (start + (2 * i + 1)) with (start + 2 * i + 1) by lia. apply Hx1. lia.
    + replace (start + (2 * i + 2)) with (start + 2 * i + 2) by lia. apply Hx2. lia.
Qed.

End percolate.

Lemma percolateDown_spec max v root start end_ :
  start ≤ root → root < end_ → end_ ≤ length v →
  (∀ p, root - start < p → node_ok max v start end_ p) →
  ∃ v', Online.percolateDown v root start end_ max = Ok v' ∧
    length v' = length v ∧ v' ≡ₚ v ∧
    (∀ q, q ≠ root → q < start + 2 * (root - start) + 1 ∨ end_ ≤ q →
          v' !! q = v !! q) ∧
    (∀ p, root - start ≤ p → node_ok max v' start end_ p) ∧
    (∀ x, above max x (key v root) →
       (2 * (root - start) + 1 < end_ - start →
          above max x (key v (start + 2 * (root - start) + 1))) →
       (2 * (root - start) + 2 < end_ - start →
          above max x (key v (start + 2 * (root - start) + 2))) →
       above max x (key v' root)).
Proof.
  intros H1 H2 H3. unfold Online.percolateDown.
  assert (∃ i, root = start + i) as [i ->] by (exists (root - start); lia).
  replace (start + i - start) with i by lia. intros Hbelow.
  destruct (deref_Ok v start end_ (start + i)) as (temp & Htemp & ->); [lia..|].
  rewrite (key_lookup _ _ _ Htemp).
  destruct (percolate_loop_spec max start end_ temp (end_ - start) v i)
    as (v' & Hrun & Hlen & Hperm & Hframe & Hnodes & Hlow); [lia..|done|done|].
  exists v'. split; [exact Hrun|]. by split_and!.
Qed.

(** A heap's first element is extremal: no element of the range lies
    strictly above it. *)
Lemma heap_ordered_root max v start end_ :
  heap_ordered max v start end_ →
  ∀ p, p < end_ - start → above max (key v start) (key v (start + p)).
Proof.
  intros Hheap p. induction (lt_wf p) as [p _ IH]. intros Hp.
  destruct p as [|p]; [rewrite Nat.add_0_r; apply above_refl|].
  destruct (Nat.Even_or_Odd p) as [[q ->]|[q ->]].
  - apply above_trans with (key v (start + q)); [apply IH; lia|].
    destruct (Hheap q) as [Hq _].
    replace (start + S (2 * q)) with (start + 2 * q + 1) by lia. apply Hq. lia.
  - apply above_trans with (key v (start + q)); [apply IH; lia|].
    destruct (Hheap q) as [_ Hq].
    replace (start + S (2 * q + 1)) with (start + 2 * q + 2) by lia. apply Hq. lia.
Qed.

(** ** Streams *)

Lemma vector_next_exhausted (s : VectorPlayerStream) :
  nextPlayer s = Err ExhaustedSource ↔ remaining s = 0%N.
Proof.
  simpl. unfold vector_nextPlayer.
  destruct (N.ltb_spec 0 (vector_remaining s)) as [Hpos|Hzero].
  - split; [|lia]. by destruct (_ !! _).
  - split; [lia|done].
Qed.

Lemma vector_next_advances (s : VectorPlayerStream) :
  remaining s ≠ 0%N →
  ∃ p s', nextPlayer s = Ok (p, s') ∧ remaining s = (remaining s' + 1)%N.
Proof.
  simpl. unfold vector_nextPlayer, vector_remaining. intros Hpos.
  destruct (N.ltb_spec 0 (N.of_nat (length (players_ s)) - current_ s)); [|lia].
  simpl.
  destruct (lookup_lt_is_Some_2 (players_ s) (N.to_nat (current_ s + 1 - 1)))
    as [p Hp]; [lia|].
  rewrite Hp. eexists _, _. split; [done|]. simpl. lia.
Qed.

#[global] Instance vector_pull_sequence : PullSequence VectorPlayerStream.
Proof. split; [apply vector_next_exhausted | apply vector_next_advances]. Qed.

Lemma drain_vector_new players : streamed (VectorPlayerStream_new players) = players.
Proof.
  unfold streamed.
  assert (Hgen : ∀ fuel done_ todo,
    length todo = fuel →
    drain fuel {| players_ := done_ ++ todo; current_ := N.of_nat (length done_) |}
    = todo).
  { induction fuel as [|fuel IH]; intros done_ todo Hlen.
    - by destruct todo.
    - destruct todo as [|p todo]; [done|]. simpl in Hlen.
      cbn [drain nextPlayer vector_stream]. unfold vector_nextPlayer, vector_remaining.
      cbn [players_ current_]. rewrite length_app. simpl length.
      destruct (N.ltb_spec 0 (N.of_nat (length done_ + S (length todo))
                              - N.of_nat (length done_))); [|lia].
      replace (N.to_nat (N.of_nat (length done_) + 1 - 1)) with (length done_ + 0)
        by lia.
      rewrite lookup_app_r by lia.
      replace (length done_ + 0 - length done_) with 0 by lia. simpl.
      f_equal.
      specialize (IH (done_ ++ [p]) todo).
      rewrite length_app, <- (assoc_L (++)) in IH. simpl in IH.
      replace (N.of_nat (length done_) + 1)%N with (N.of_nat (length done_ + 1))
        by lia.
      apply IH. lia. }
  specialize (Hgen (length players) [] players eq_refl).
  simpl in *. unfold vector_remaining. simpl.
  by rewrite N.sub_0_r, Nat2N.id.
Qed.

Section stream_run.
Context `{StdAlgorithms} {Stm : Type} `{PullSequence Stm}.

Lemma drain_length : ∀ fuel (s : Stm),
  remaining s = N.of_nat fuel → length (drain fuel s) = fuel.
Proof.
  induction fuel as [|fuel IH]; intros s Hrem; [done|].
  destruct (next_advances s) as (p & s' & Hnext & Hdec); [lia|].
  simpl. rewrite Hnext. simpl. f_equal. apply IH. lia.
Qed.

Lemma streamed_length (s : Stm) : length (streamed s) = N.to_nat (remaining s).
Proof. apply drain_length. lia. Qed.

(** On a Pull Sequence the loop of [rankIncoming] is the run of its body
    over the records the stream holds, and it leaves the stream exhausted. *)
Lemma rank_loop_drain ri : ∀ fuel (s : Stm) st,
  remaining s = N.of_nat fuel →
  ∃ s', remaining s' = 0%N ∧
    rank_loop fuel ri s st =
    (st' ← rank_steps ri (drain fuel s) st; Ok (s', st')).
Proof.
  induction fuel as [|fuel IH]; intros s st Hrem.
  - exists s. split; [done|]. simpl. rewrite Hrem. done.
  - destruct (next_advances s) as (p & s' & Hnext & Hdec); [lia|].
    cbn [rank_loop drain rank_steps]. rewrite Hnext.
    destruct (N.ltb_spec 0 (remaining s)); [|lia].
    cbn [mbind res_bind].
    destruct (rank_step ri p st) as [st1|f] eqn:Hstep.
    + destruct (IH s' st1) as (s'' & Hs'' & Heq); [lia|].
      exists s''. split; [done|]. cbn [rank_steps]. rewrite Hstep. exact Heq.
    + destruct (IH s' st) as (s'' & Hs'' & _); [lia|].
      exists s''. split; [done|]. cbn [rank_steps]. by rewrite Hstep.
Qed.

(** The loop ends by its own test [stream.remaining() > 0], not by the
    bound on its turns: any bound of at least [remaining()] turns gives
    the run that [remaining()] turns give. *)
Lemma rank_loop_fuel ri : ∀ n fuel (s : Stm) st,
  remaining s = N.of_nat n → n ≤ fuel →
  rank_loop fuel ri s st = rank_loop n ri s st.
Proof.
  induction n as [|n IH]; intros fuel s st Hrem Hfuel.
  - destruct fuel; cbn [rank_loop]; by rewrite Hrem.
  - destruct fuel as [|fuel]; [lia|].
    destruct (next_advances s) as (p & s' & Hnext & Hdec); [lia|].
    cbn [rank_loop]. rewrite Hnext.
    destruct (N.ltb_spec 0 (remaining s)); [|lia].
    cbn [mbind res_bind].
    destruct (rank_step ri p st) as [st1|f]; [|done].
    cbn [mbind res_bind]. apply IH; lia.
Qed.

End stream_run.

(** ** The loop invariant of rankIncoming *)

Lemma key_cons_S x v p : key (x :: v) (S p) = key v p.
Proof. done. Qed.

Lemma heap_min v :
  is_heap greater v → ∀ y, y ∈ v → (key v 0 ≤ level_ y)%N.
Proof.
  intros Hheap y Hy. apply list_elem_of_lookup in Hy as [p Hp].
  pose proof (lookup_lt_Some _ _ _ Hp) as Hlt.
  pose proof (heap_ordered_root false v 0 (length v) Hheap p) as Hroot.
  simpl in Hroot. rewrite (key_lookup _ _ _ Hp) in Hroot. apply Hroot. lia.
Qed.

(** Nodes other than the first do not look at the first element. *)
Lemma node_ok_head max x y v n q :
  0 < q → node_ok max (x :: v) 0 n q → node_ok max (y :: v) 0 n q.
Proof.
  intros Hq [H1 H2]. destruct q as [|q]; [lia|].
  split; intros Hc.
  - specialize (H1 Hc).
    replace (0 + 2 * S q + 1) with (S (2 * q + 2)) in * by lia.
    replace (0 + S q) with (S q) in * by lia.
    by rewrite !key_cons_S in *.
  - specialize (H2 Hc).
    replace (0 + 2 * S q + 2) with (S (2 * q + 3)) in * by lia.
    replace (0 + S q) with (S q) in * by lia.
    by rewrite !key_cons_S in *.
Qed.

Section rank_invariant.
Context `{StdAlgorithms}.
Variable ri : N.
Hypothesis Hri : (1 ≤ ri)%N.

Lemma rank_inv_init : rank_inv ri [] 0 [] ∅.
Proof.
  split; try done.
  - lia.
  - exists []. split; [done|]. intros x y Hx. by apply elem_of_nil in Hx.
Qed.

Lemma update_min_top_spec seen read min_top cutoffs p :
  rank_inv ri seen read min_top cutoffs →
  ∃ min_top', update_min_top ri (read + 1) p min_top = Ok min_top' ∧
    ((read + 1 < ri)%N → min_top' = seen ++ [p]) ∧
    ((ri ≤ read + 1)%N →
       is_heap greater min_top' ∧ length min_top' = N.to_nat ri) ∧
    (∃ rest, seen ++ [p] ≡ₚ rest ++ min_top' ∧
       ∀ x y, x ∈ rest → y ∈ min_top' → key_le x y) ∧
    ((ri ≤ read)%N → (key min_top 0 ≤ key min_top' 0)%N).
Proof.
  intros [Hread Hfill Hheap (rest & Hseen & Hrest) _ _ _].
  unfold update_min_top.
  destruct (N.ltb_spec (read + 1) ri) as [Hlt|Hge].
  { (* still filling *)
    destruct Hfill as [-> _]; [lia|].
    exists (seen ++ [p]). split_and!; try done; try lia.
    exists []. split; [done|]. intros x y Hx. by apply elem_of_nil in Hx. }
  destruct (N.eqb_spec (read + 1) ri) as [Heq|Hne].
  { (* the interval is reached: build the heap *)
    destruct Hfill as [-> _]; [lia|].
    exists (make_heap greater (seen ++ [p])). split_and!; try done; try lia.
    - intros _. split; [apply make_heap_is_heap|].
      rewrite make_heap_perm, length_app. simpl. lia.
    - exists []. split; [by rewrite make_heap_perm|].
      intros x y Hx. by apply elem_of_nil in Hx. }
  (* beyond the interval: compare with the minimum *)
  destruct Hheap as [Hheap Hlen]; [lia|].
  destruct min_top as [|front tail]; [simpl in Hlen; lia|].
  assert (Hmin : ∀ y, y ∈ front :: tail → (level_ front ≤ level_ y)%N).
  { intros y Hy. by apply (heap_min _ Hheap). }
  cbn [deref length Nat.leb Nat.ltb andb lookup list_lookup mbind res_bind].
  destruct (N.leb_spec (level_ front) (level_ p)) as [Hle|Hgt]; cycle 1.
  { (* the newcomer is below the minimum: discarded *)
    exists (front :: tail). split_and!; try done; try lia.
    exists (p :: rest). split.
    - rewrite Hseen. simpl. symmetry. apply Permutation_cons_append.
    - intros x y [->|Hx]%elem_of_cons Hy; [|by apply Hrest].
      specialize (Hmin y Hy). unfold key_le. lia. }
  (* the newcomer replaces the minimum *)
  unfold Online.replaceMin.
  cbn [deref length Nat.leb Nat.ltb andb lookup list_lookup mbind res_bind
       insert list_insert].
  destruct (percolateDown_spec false (p :: tail) 0 0 (S (length tail)))
    as (v' & -> & Hlen' & Hperm' & _ & Hnodes & Hlow); [lia|lia|done|..].
  { intros q Hq. apply (node_ok_head _ front); [lia|apply Hheap]. }
  exists v'. split; [done|]. simpl in Hlen'.
  assert (Hheap' : is_heap greater v').
  { intros q. unfold orientation. rewrite Hlen'. apply Hnodes. lia. }
  split_and!; try done; try lia.
  - intros _. split; [done|]. simpl in Hlen. lia.
  - exists (front :: rest). split.
    + rewrite Hperm', Hseen. simpl.
      rewrite <- Permutation_cons_append, <- !Permutation_middle.
      apply Permutation_swap.
    + intros x y Hx Hy. rewrite Hperm' in Hy. unfold key_le.
      assert (Hy' : y = p ∨ y ∈ front :: tail).
      { apply elem_of_cons in Hy as [->|Hy]; [by left|right; by right]. }
      apply elem_of_cons in Hx as [->|Hx].
      * destruct Hy' as [->|Hy']; [done|by apply Hmin].
      * destruct Hy' as [->|Hy']; [|by apply Hrest].
        assert (key_le x front) as Hxf by (apply Hrest; [done|by left]).
        unfold key_le in Hxf. lia.
  - intros _. simpl in Hlow. unfold key at 1. simpl.
    apply (Hlow (level_ front)); simpl; [done|..]; intros Hc.
    + destruct (Hheap 0) as [H1 _]. simpl in H1. apply H1. lia.
    + destruct (Hheap 0) as [_ H2]. simpl in H2. apply H2. lia.
Qed.

Lemma rank_step_inv seen read min_top cutoffs p :
  rank_inv ri seen read min_top cutoffs →
  ∃ min_top' cutoffs',
    rank_step ri p (read, min_top, cutoffs) = Ok ((read + 1)%N, min_top', cutoffs') ∧
    rank_inv ri (seen ++ [p]) (read + 1) min_top' cutoffs'.
Proof.
  intros Hinv.
  destruct (update_min_top_spec _ _ _ _ p Hinv)
    as (min_top' & Hupd & Hfill' & Hheap' & Htop' & Hgrow).
  destruct Hinv as [Hread Hfill Hheap _ Hbound Hmono Hlast].
  unfold rank_step. rewrite Hupd. cbn [mbind res_bind].
  assert (Hread' : (read + 1)%N = N.of_nat (length (seen ++ [p]))).
  { rewrite length_app. simpl. lia. }
  assert (Hold : ∀ m c, cutoffs !! m = Some c →
            (ri ≤ m ≤ read)%N ∧ (c ≤ key min_top' 0)%N).
  { intros m c Hm. destruct (Hbound m c Hm) as [? ?].
    split; [done|]. etrans; [done|]. apply Hgrow. lia. }
  assert (Hfresh : cutoffs !! (read + 1)%N = None).
  { destruct (cutoffs !! (read + 1)%N) as [c|] eqn:Hc; [|done].
    destruct (Hbound _ _ Hc). lia. }
  unfold record_cutoff.
  destruct (N.eqb_spec ri 0) as [?|_]; [lia|].
  destruct ((((read + 1) mod ri =? 0)%N && negb (bool_decide (min_top' = []))))
    eqn:Hcond; cycle 1.
  { (* no cutoff is recorded *)
    exists min_top', cutoffs. split; [done|].
    split; try done.
    - intros Hlt. destruct Hfill as [_ ->]; [lia|]. split; [by apply Hfill'|done].
    - intros m c Hm. destruct (Hold m c Hm). split; [lia|done].
    - intros c Hc. congruence. }
  apply andb_true_iff in Hcond as [Hmod%N.eqb_eq Hne].
  assert (Hge : (ri ≤ read + 1)%N).
  { destruct (N.lt_ge_cases (read + 1) ri) as [Hlt|]; [|done].
    rewrite N.mod_small in Hmod by done. lia. }
  destruct (Hheap' Hge) as [Hh Hl].
  destruct (deref_Ok min_top' 0 (length min_top') 0) as (m0 & Hm0 & ->); [lia..|].
  cbn [mbind res_bind]. unfold insert_cutoff. rewrite Hfresh.
  rewrite <- (key_lookup _ _ _ Hm0).
  exists min_top', (<[(read + 1)%N := key min_top' 0]> cutoffs).
  split; [done|]. split; try done.
  - lia.
  - intros m c. rewrite lookup_insert. case_decide as Hm.
    + intros [= <-]. subst m. lia.
    + intros Hc. destruct (Hold m c Hc). split; [lia|done].
  - intros m1 m2 c1 c2. rewrite !lookup_insert.
    repeat case_decide; intros Hc1 Hc2 Hlt; simplify_eq.
    + lia.
    + destruct (Hold m2 c2 Hc2). lia.
    + by destruct (Hold m1 c1 Hc1).
    + by apply (Hmono m1 m2).
  - intros c. rewrite lookup_insert_eq. congruence.
Qed.

Lemma rank_steps_inv : ∀ l seen read min_top cutoffs,
  rank_inv ri seen read min_top cutoffs →
  ∃ min_top' cutoffs',
    rank_steps ri l (read, min_top, cutoffs)
      = Ok ((read + N.of_nat (length l))%N, min_top', cutoffs') ∧
    rank_inv ri (seen ++ l) (read + N.of_nat (length l)) min_top' cutoffs'.
Proof.
  induction l as [|p l IH]; intros seen read min_top cutoffs Hinv.
  - exists min_top, cutoffs. simpl. rewrite N.add_0_r, app_nil_r. done.
  - destruct (rank_step_inv _ _ _ _ p Hinv) as (mt1 & cut1 & Hstep & Hinv1).
    destruct (IH _ _ _ _ Hinv1) as (mt2 & cut2 & Hsteps & Hinv2).
    exists mt2, cut2. cbn [rank_steps]. rewrite Hstep. cbn [mbind res_bind].
    rewrite Hsteps, <- (assoc_L (++)) in *. cbn [length app] in *.
    replace (read + N.of_nat (S (length l)))%N
      with (read + 1 + N.of_nat (length l))%N by lia.
    done.
Qed.

End rank_invariant.

(** ** Sorted lists of keys *)

#[global] Instance key_le_trans : Transitive key_le.
Proof. intros a b c. unfold key_le. lia. Qed.

#[global] Instance key_le_total : Total key_le.
Proof. intros a b. unfold key_le. lia. Qed.

Lemma StronglySorted_lookup {A} (R : relation A) l i j x y :
  StronglySorted R l → l !! i = Some x → l !! j = Some y → i < j → R x y.
Proof.
  intros Hs. revert i j. induction Hs as [|a l Hs IH Hall]; intros i j Hi Hj Hlt.
  - by rewrite lookup_nil in Hi.
  - destruct j as [|j]; [lia|]. destruct i as [|i]; simpl in *.
    + simplify_eq. rewrite Forall_forall in Hall. apply Hall.
      by eapply list_elem_of_lookup_2.
    + apply (IH i j); (done || lia).
Qed.

Lemma Sorted_keys v : Sorted key_le v → Sorted N.le (keys v).
Proof. apply Sorted_fmap. done. Qed.

(** The [k] largest keys are pinned down by any split of the population
    into an ascending part of length [k] and a part below it. *)
Lemma largest_unique (ks rest top : list N) :
  ks ≡ₚ rest ++ top → Sorted N.le top →
  (∀ x y, x ∈ rest → y ∈ top → (x ≤ y)%N) →
  largest (length top) ks = top.
Proof.
  intros Hperm Hsorted Hsplit. unfold largest.
  assert (Hms : merge_sort N.le ks = merge_sort N.le rest ++ top).
  { apply (StronglySorted_unique N.le).
    - apply StronglySorted_merge_sort; apply _.
    - apply StronglySorted_app_2.
      + intros x y Hx Hy. rewrite merge_sort_Permutation in Hx. by apply Hsplit.
      + apply StronglySorted_merge_sort; apply _.
      + apply Sorted_StronglySorted; [apply _|done].
    - by rewrite !merge_sort_Permutation. }
  rewrite Hms.
  assert (Hlen : length ks - length top = length (merge_sort N.le rest)).
  { rewrite Hperm, length_app, merge_sort_Permutation. lia. }
  rewrite Hlen. by rewrite drop_app_length.
Qed.

Lemma largest_length k ks : k ≤ length ks → length (largest k ks) = k.
Proof.
  intros Hk. unfold largest. rewrite length_drop, merge_sort_Permutation. lia.
Qed.

(** [largest k ks] is what its name says: an ascending list that, with
    keys none of which exceeds any of its own, makes up [ks]. *)
Lemma largest_spec k ks :
  Sorted N.le (largest k ks) ∧
  ∃ rest, ks ≡ₚ rest ++ largest k ks ∧
    ∀ x y, x ∈ rest → y ∈ largest k ks → (x ≤ y)%N.
Proof.
  unfold largest.
  pose proof (StronglySorted_merge_sort N.le ks) as Hs.
  rewrite <- (take_drop (length ks - k) (merge_sort N.le ks)) in Hs.
  apply StronglySorted_app in Hs as (Hsplit & _ & Hdrop).
  split; [by apply StronglySorted_Sorted|].
  exists (take (length ks - k) (merge_sort N.le ks)). split; [|done].
  by rewrite take_drop, merge_sort_Permutation.
Qed.

(** ** A reference implementation of the standard algorithms *)

Lemma sorted_is_heap c v :
  StronglySorted (λ a b, above (orientation c) (level_ a) (level_ b)) v →
  is_heap c v.
Proof.
  intros Hs p. split; intros Hc; rewrite !Nat.add_0_l.
  - destruct (lookup_lt_is_Some_2 v p) as [x Hx]; [lia|].
    destruct (lookup_lt_is_Some_2 v (2 * p + 1)) as [y Hy]; [lia|].
    rewrite (key_lookup _ _ _ Hx), (key_lookup _ _ _ Hy).
    apply (StronglySorted_lookup _ _ _ _ _ _ Hs Hx Hy). lia.
  - destruct (lookup_lt_is_Some_2 v p) as [x Hx]; [lia|].
    destruct (lookup_lt_is_Some_2 v (2 * p + 2)) as [y Hy]; [lia|].
    rewrite (key_lookup _ _ _ Hx), (key_lookup _ _ _ Hy).
    apply (StronglySorted_lookup _ _ _ _ _ _ Hs Hx Hy). lia.
Qed.

Lemma reference_make_heap_perm c v : reference_make_heap c v ≡ₚ v.
Proof.
  destruct c; simpl; [rewrite reverse_Permutation|]; apply merge_sort_Permutation.
Qed.

Lemma reference_make_heap_is_heap c v : is_heap c (reference_make_heap c v).
Proof.
  apply sorted_is_heap. destruct c; simpl.
  - apply Sorted_StronglySorted.
    { intros x y z. lia. }
    apply (Sorted_reverse key_le), Sorted_merge_sort; apply _.
  - apply StronglySorted_merge_sort; apply _.
Qed.

#[global] Instance reference_algorithms : StdAlgorithms := {|
  make_heap := reference_make_heap;
  pop_heap := reference_pop_heap;
  sort := merge_sort key_le;
  make_heap_perm := reference_make_heap_perm;
  make_heap_is_heap := reference_make_heap_is_heap;
  pop_heap_spec c x v _ :=
    ex_intro _ (reference_make_heap c v)
      (conj eq_refl (conj (reference_make_heap_perm c v)
                          (reference_make_heap_is_heap c v)));
  sort_perm := merge_sort_Permutation key_le;
  sort_sorted := Sorted_merge_sort key_le;
|}.

(** ** rankIncoming as a whole *)

Section rankIncoming_facts.
Context `{StdAlgorithms} {Stm : Type} `{PlayerStream Stm}.

(** Whatever the stream does, a completed loop has run the loop body over
    some list of records. *)
Lemma rank_loop_steps ri : ∀ fuel (s s' : Stm) st st',
  rank_loop fuel ri s st = Ok (s', st') →
  ∃ l, rank_steps ri l st = Ok st'.
Proof.
  induction fuel as [|fuel IH]; intros s s' st st'; cbn [rank_loop].
  - destruct (0 <? remaining s)%N; [done|]. intros [= _ <-]. by exists [].
  - destruct (0 <? remaining s)%N; [|intros [= _ <-]; by exists []].
    destruct (nextPlayer s) as [[p s1]|]; [|done]. cbn [mbind res_bind].
    destruct (rank_step ri p st) as [st1|] eqn:Hstep; [|done].
    cbn [mbind res_bind]. intros [l Hl]%IH.
    exists (p :: l). cbn [rank_steps]. by rewrite Hstep.
Qed.

Lemma rank_inv_nonempty ri seen read min_top cutoffs :
  (1 ≤ ri)%N → rank_inv ri seen read min_top cutoffs → seen ≠ [] →
  ∃ m0, min_top !! 0 = Some m0.
Proof.
  intros Hri [Hread Hfill Hheap _ _ _ _] Hseen.
  apply lookup_lt_is_Some_2.
  destruct (N.lt_ge_cases read ri) as [Hlt|Hge].
  - destruct (Hfill Hlt) as [-> _]. destruct seen; [done|simpl; lia].
  - destruct (Hheap Hge) as [_ ->]. lia.
Qed.

(** The shape of every completed run. *)
Lemma rankIncoming_Ok ri (s s' : Stm) r :
  (1 ≤ ri)%N → rankIncoming s ri = Ok (r, s') →
  ∃ seen min_top cutoffs m0,
    rank_inv ri seen (N.of_nat (length seen)) min_top cutoffs ∧
    min_top !! 0 = Some m0 ∧
    r = {| top_ := sort min_top;
           cutoffs_ := insert_cutoff (N.of_nat (length seen)) (level_ m0) cutoffs |}.
Proof.
  intros Hri. unfold rankIncoming.
  destruct (rank_loop _ ri s _) as [[s1 [[read min_top] cutoffs]]|] eqn:Hloop;
    [|done].
  apply rank_loop_steps in Hloop as [seen Hsteps].
  destruct (rank_steps_inv ri Hri seen [] 0%N [] ∅ (rank_inv_init ri Hri))
    as (mt & cut & Hrun & Hinv).
  rewrite Hrun in Hsteps. simplify_eq. simpl in Hinv.
  cbn [mbind res_bind]. unfold deref.
  destruct ((0 <=? 0) && (0 <? length min_top)); [|done].
  destruct (min_top !! 0) as [m0|] eqn:Hm0; [|done].
  cbn [mbind res_bind]. intros [= <- <-].
  exists seen, min_top, cutoffs, m0. rewrite N.add_0_l in Hinv. done.
Qed.

End rankIncoming_facts.

Section rankIncoming_pull.
Context `{StdAlgorithms} {Stm : Type} `{PullSequence Stm}.

(** On a Pull Sequence holding at least one record, the run completes. *)
Lemma rankIncoming_run ri (s : Stm) :
  (1 ≤ ri)%N → remaining s ≠ 0%N →
  ∃ s' min_top cutoffs m0,
    rankIncoming s ri =
      Ok ({| top_ := sort min_top;
             cutoffs_ := insert_cutoff (remaining s) (level_ m0) cutoffs |}, s') ∧
    remaining s' = 0%N ∧
    rank_inv ri (streamed s) (remaining s) min_top cutoffs ∧
    min_top !! 0 = Some m0.
Proof.
  intros Hri Hrem. unfold rankIncoming.
  destruct (rank_loop_drain ri (N.to_nat (remaining s)) s (0%N, [], ∅))
    as (s' & Hs' & ->); [lia|].
  fold (streamed s).
  destruct (rank_steps_inv ri Hri (streamed s) [] 0%N [] ∅ (rank_inv_init ri Hri))
    as (mt & cut & -> & Hinv).
  simpl in Hinv. rewrite N.add_0_l, streamed_length, N2Nat.id in *.
  destruct (rank_inv_nonempty ri _ _ _ _ Hri Hinv) as [m0 Hm0].
  { intros Hnil. pose proof (streamed_length s) as Hl. rewrite Hnil in Hl.
    simpl in Hl. lia. }
  cbn [mbind res_bind].
  destruct (deref_Ok mt 0 (length mt) 0) as (m0' & Hm0' & ->);
    [lia|by eapply lookup_lt_Some|done|].
  cbn [mbind res_bind]. assert (m0' = m0) as -> by congruence.
  by exists s', mt, cut, m0.
Qed.

(** On an exhausted stream the final [min_top[0]] reads an empty vector. *)
Lemma rankIncoming_exhausted ri (s : Stm) :
  remaining s = 0%N → rankIncoming s ri = Err OutOfRange.
Proof.
  intros Hrem. unfold rankIncoming. rewrite Hrem. simpl. by rewrite Hrem.
Qed.

(** With a zero interval the first record already makes the loop read
    the front of an empty vector. *)
Lemma rankIncoming_zero_interval (s : Stm) : rankIncoming s 0 = Err OutOfRange.
Proof.
  destruct (decide (remaining s = 0%N)) as [Hz|Hnz];
    [by apply rankIncoming_exhausted|].
  unfold rankIncoming.
  destruct (rank_loop_drain 0 (N.to_nat (remaining s)) s (0%N, [], ∅))
    as (s' & Hs' & ->); [lia|].
  pose proof (drain_length (N.to_nat (remaining s)) s) as Hlen.
  destruct (drain _ s) as [|p l]; [simpl in Hlen; lia|]. done.
Qed.

End rankIncoming_pull.

(** ** What the invariant says about the returned result *)

Section rank_result.
Context `{StdAlgorithms}.
Variable ri : N.
Hypothesis Hri : (1 ≤ ri)%N.

Lemma rank_inv_length seen read min_top cutoffs :
  rank_inv ri seen read min_top cutoffs →
  length min_top = N.to_nat (N.min ri read).
Proof.
  intros [Hread Hfill Hheap _ _ _ _].
  destruct (N.lt_ge_cases read ri) as [Hlt|Hge].
  - destruct (Hfill Hlt) as [-> _]. lia.
  - destruct (Hheap Hge) as [_ ->]. lia.
Qed.

Lemma rank_inv_keys seen read min_top cutoffs :
  rank_inv ri seen read min_top cutoffs →
  keys (sort min_top) = largest (N.to_nat (N.min ri read)) (keys seen).
Proof.
  intros Hinv. rewrite <- (rank_inv_length _ _ _ _ Hinv).
  destruct Hinv as [_ _ _ (rest & Hseen & Hrest) _ _ _].
  rewrite <- (sort_perm min_top) at 2.
  replace (length (sort min_top)) with (length (keys (sort min_top)))
    by (unfold keys; by rewrite length_fmap).
  symmetry. apply (largest_unique _ (keys rest)).
  - unfold keys. by rewrite Hseen, fmap_app, sort_perm.
  - apply Sorted_keys, sort_sorted.
  - intros x y (a & -> & Ha)%list_elem_of_fmap (b & -> & Hb)%list_elem_of_fmap.
    rewrite sort_perm in Hb. by apply Hrest.
Qed.

Lemma final_cutoff_recorded read m0 cutoffs min_top seen :
  rank_inv ri seen read min_top cutoffs → min_top !! 0 = Some m0 →
  insert_cutoff read (level_ m0) cutoffs !! read = Some (level_ m0).
Proof.
  intros [_ _ _ _ _ _ Hlast] Hm0. unfold insert_cutoff.
  destruct (cutoffs !! read) as [c|] eqn:Hc.
  - rewrite Hc, (Hlast c eq_refl). by rewrite (key_lookup _ _ _ Hm0).
  - by rewrite lookup_insert_eq.
Qed.

Lemma final_cutoffs_monotone read m0 cutoffs min_top seen :
  rank_inv ri seen read min_top cutoffs → min_top !! 0 = Some m0 →
  ∀ m1 m2 c1 c2,
    insert_cutoff read (level_ m0) cutoffs !! m1 = Some c1 →
    insert_cutoff read (level_ m0) cutoffs !! m2 = Some c2 →
    (m1 < m2)%N → (c1 ≤ c2)%N.
Proof.
  intros [_ _ _ _ Hbound Hmono _] Hm0 m1 m2 c1 c2. unfold insert_cutoff.
  destruct (cutoffs !! read) as [c|] eqn:Hc; [by apply Hmono|].
  rewrite !lookup_insert. repeat case_decide; intros Hc1 Hc2 Hlt; simplify_eq.
  - lia.
  - destruct (Hbound _ _ Hc2). lia.
  - destruct (Hbound _ _ Hc1) as [_ Hle].
    by rewrite (key_lookup _ _ _ Hm0) in Hle.
  - by apply (Hmono m1 m2).
Qed.

(** Once the heap has been built, [min_top[0]] is the smallest record of
    the top set. *)
Lemma heap_front_smallest seen read min_top cutoffs m0 :
  rank_inv ri seen read min_top cutoffs → (ri ≤ read)%N →
  min_top !! 0 = Some m0 →
  m0 ∈ sort min_top ∧ ∀ y, y ∈ sort min_top → (level_ m0 ≤ level_ y)%N.
Proof.
  intros [_ _ Hheap _ _ _ _] Hge Hm0. destruct (Hheap Hge) as [Hh _].
  split.
  - rewrite sort_perm. by eapply list_elem_of_lookup_2.
  - intros y Hy. rewrite sort_perm in Hy.
    rewrite <- (key_lookup _ _ _ Hm0). by apply heap_min.
Qed.

End rank_result.

(** ** Streams that refuse a pull at [remaining() == 0] *)

Section guarded.
Context `{StdAlgorithms} {Stm : Type} `{PlayerStream Stm}.

Lemma rank_loop_guard ri : ∀ fuel (s : Stm) st,
  rank_loop fuel ri (guard s) st =
  ('(s', st') ← rank_loop fuel ri s st; Ok (guard s', st')).
Proof.
  induction fuel as [|fuel IH]; intros s st; cbn [rank_loop].
  - cbn [remaining guarded_stream unguard]. by destruct (0 <? remaining s)%N.
  - cbn [remaining nextPlayer guarded_stream unguard].
    destruct (N.ltb_spec 0 (remaining s)) as [Hpos|Hzero]; [|done].
    destruct (N.eqb_spec (remaining s) 0) as [?|_]; [lia|].
    destruct (nextPlayer s) as [[p s1]|]; [|done]. cbn [mbind res_bind].
    destruct (rank_step ri p st) as [st1|]; [|done]. cbn [mbind res_bind].
    apply IH.
Qed.

Lemma rankIncoming_guard ri (s : Stm) :
  rankIncoming (guard s) ri =
  ('(r, s') ← rankIncoming s ri; Ok (r, guard s')).
Proof.
  unfold rankIncoming. rewrite rank_loop_guard.
  cbn [remaining guarded_stream unguard].
  destruct (rank_loop _ ri s _) as [[s1 [[read min_top] cutoffs]]|]; [|done].
  cbn [mbind res_bind]. by destruct (deref _ _ _ _).
Qed.

End guarded.

(** * The specification's properties: heap primitives *)

(** C7, as the specification words it, fails when [root] is not the start
    of the range: every node but node 1 of [5 10 6 3 8] is in min-heap
    order with its children, and percolating node 1 down yields
    [5 3 6 10 8], whose node 0 is above a smaller child. *)
Lemma percolateDown_parent_counterexample :
  heap_ordered_except false (pl <$> [5; 10; 6; 3; 8]%N) 0 5 1 ∧
  ∃ v', Online.percolateDown (pl <$> [5; 10; 6; 3; 8]%N) 1 0 5 false = Ok v' ∧
        ¬ heap_ordered false v' 0 5.
Proof.
  split.
  - intros p Hp. destruct p as [|[|p]]; [|done|].
    + split; intros _; by vm_compute.
    + split; intros Hc; simpl in Hc; lia.
  - exists (pl <$> [5; 3; 6; 10; 8]%N). split; [reflexivity|].
    intros Hheap. destruct (Hheap 0) as [Hleft _].
    assert (Hc : 2 * 0 + 1 < 5 - 0) by (simpl; lia).
    specialize (Hleft Hc). by vm_compute in Hleft.
Qed.

(** C7 (amended): for every range [[start, end_)] and every [root] in it,
    if every node other than [root] is in heap order with its children
    (min- or max-oriented per [max]), then [percolateDown] returns without
    reading outside the range (a node with only a left child included),
    permutes the vector, and leaves every node in heap order except
    possibly the parent of [root].  The whole range is heap-ordered when
    [root] is the start of the range, and more generally when the parent
    of [root] was in heap order with [root] and with [root]'s children. *)
Theorem percolateDown_restores_heap_order max v root start end_ :
  start ≤ root → root < end_ → end_ ≤ length v →
  heap_ordered_except max v start end_ root →
  ∃ v', Online.percolateDown v root start end_ max = Ok v' ∧ v' ≡ₚ v ∧
    (∀ p, start + 2 * p + 1 ≠ root → start + 2 * p + 2 ≠ root →
          node_ok max v' start end_ p) ∧
    (root = start → heap_ordered max v' start end_) ∧
    (∀ q, start + 2 * q + 1 = root ∨ start + 2 * q + 2 = root →
          (∀ c, c = root ∨ c = start + 2 * (root - start) + 1
                ∨ c = start + 2 * (root - start) + 2 →
                c < end_ → above max (key v (start + q)) (key v c)) →
          heap_ordered max v' start end_).
Proof.
  intros H1 H2 H3 Hexc.
  destruct (percolateDown_spec max v root start end_)
    as (v' & Hrun & Hlen & Hperm & Hframe & Hnodes & Hlow); [done..| |].
  { intros p Hp. apply Hexc. lia. }
  assert (Hkey : ∀ q, q ≠ root → q < start + 2 * (root - start) + 1 ∨ end_ ≤ q →
            key v' q = key v q).
  { intros q ??. unfold key. by rewrite Hframe. }
  assert (Hrest : ∀ p, start + 2 * p + 1 ≠ root → start + 2 * p + 2 ≠ root →
            node_ok max v' start end_ p).
  { intros p Hp1 Hp2.
    destruct (decide (root - start ≤ p)) as [Hge|Hlt]; [by apply Hnodes|].
    destruct (Hexc p) as [Hl Hr]; [lia|].
    split; intros Hc; rewrite !Hkey by lia; auto. }
  exists v'. split_and!; try done.
  - intros -> p. apply Hnodes. lia.
  - intros q Hq Habove p.
    destruct (decide (start + 2 * p + 1 ≠ root ∧ start + 2 * p + 2 ≠ root))
      as [[??]|Hparent]; [by apply Hrest|].
    assert (p = q) as -> by lia.
    assert (Hnew : above max (key v (start + q)) (key v' root)).
    { apply Hlow.
      - apply Habove; [by left|lia].
      - intros Hc. apply Habove; [right; by left|lia].
      - intros Hc. apply Habove; [right; by right|lia]. }
    destruct (Hexc q) as [Hl Hr]; [lia|].
    split; intros Hc; rewrite (Hkey (start + q)) by lia.
    + destruct (decide (start + 2 * q + 1 = root)) as [->|Hne]; [done|].
      rewrite Hkey by lia. auto.
    + destruct (decide (start + 2 * q + 2 = root)) as [->|Hne]; [done|].
      rewrite Hkey by lia. auto.
Qed.

Lemma percolateDown_restores_heap_order_witness :
  ∃ v', Online.percolateDown (pl <$> [1; 9; 2; 7; 8]%N) 1 0 5 false = Ok v' ∧
    v' ≡ₚ pl <$> [1; 9; 2; 7; 8]%N ∧
    (∀ p, 0 + 2 * p + 1 ≠ 1 → 0 + 2 * p + 2 ≠ 1 → node_ok false v' 0 5 p) ∧
    (1 = 0 → heap_ordered false v' 0 5) ∧
    (∀ q, 0 + 2 * q + 1 = 1 ∨ 0 + 2 * q + 2 = 1 →
          (∀ c, c = 1 ∨ c = 0 + 2 * (1 - 0) + 1 ∨ c = 0 + 2 * (1 - 0) + 2 →
                c < 5 →
                above false (key (pl <$> [1; 9; 2; 7; 8]%N) (0 + q))
                  (key (pl <$> [1; 9; 2; 7; 8]%N) c)) →
          heap_ordered false v' 0 5).
Proof.
  apply (percolateDown_restores_heap_order false (pl <$> [1; 9; 2; 7; 8]%N) 1 0 5).
  - lia.
  - lia.
  - simpl. lia.
  - intros p Hp. destruct p as [|[|p]]; [|lia|].
    + split; intros Hc; by vm_compute.
    + split; intros Hc; simpl in Hc; lia.
Defined.

(** A node with a left child only: the right neighbour is never read. *)
Example percolateDown_left_child_only :
  Online.percolateDown (pl <$> [9; 1; 0]%N) 0 0 2 false = Ok (pl <$> [1; 9; 0]%N).
Proof. reflexivity. Qed.

(** * The specification's properties: the online ranker *)

(** The results of [std::sort] and [std::make_heap] are fixed by their
    postconditions when it comes to keys. *)
Lemma keys_sort `{StdAlgorithms} v : keys (sort v) = merge_sort N.le (keys v).
Proof.
  apply (Sorted_unique N.le).
  - apply Sorted_keys, sort_sorted.
  - apply Sorted_merge_sort; apply _.
  - unfold keys. by rewrite merge_sort_Permutation, sort_perm.
Qed.

Lemma make_heap_two `{StdAlgorithms} a b :
  (level_ a < level_ b)%N → make_heap greater [a; b] = [a; b].
Proof.
  intros Hlt.
  pose proof (make_heap_perm greater [a; b]) as Hperm.
  pose proof (make_heap_is_heap greater [a; b]) as Hheap.
  destruct (make_heap greater [a; b]) as [|x [|y [|z v]]];
    try (apply Permutation_length in Hperm; simpl in Hperm; lia).
  apply Permutation_length_2 in Hperm as [[-> ->]|[-> ->]]; [done|].
  destruct (Hheap 0) as [Hleft _]. simpl in Hleft.
  unfold key in Hleft. simpl in Hleft. lia.
Qed.

(** C9: on every stream that keeps the Pull Sequence contract,
    [rankIncoming] never ends in [ExhaustedSource], whatever the interval;
    wrapping any stream so that a pull at [remaining() == 0] would fail
    changes nothing, i.e. no such pull is made; and the vector-backed
    stream throws exactly when [remaining()] is 0.  The run ends by the
    loop's own test [stream.remaining() > 0]: with a positive interval and
    at least one record it returns a result and leaves [remaining()] at
    0, otherwise it ends in the read of [min_top] of an empty vector; a
    larger bound on the number of turns changes no run.  For any stream
    at all, contract or not, and any number of turns, the loop over the
    wrapped stream is the loop over the stream: the loop pulls only after
    it has seen [remaining() > 0]. *)
Theorem rankIncoming_never_exhausts `{StdAlgorithms} {Stm : Type}
    `{PullSequence Stm} (s : Stm) (ri : N) :
  rankIncoming s ri ≠ Err ExhaustedSource ∧
  rankIncoming (guard s) ri = ('(r, s') ← rankIncoming s ri; Ok (r, guard s')) ∧
  (∀ vs : VectorPlayerStream,
     nextPlayer vs = Err ExhaustedSource ↔ remaining vs = 0%N) ∧
  ((1 ≤ ri)%N → remaining s ≠ 0%N →
   ∃ r s', rankIncoming s ri = Ok (r, s') ∧ remaining s' = 0%N) ∧
  (ri = 0%N ∨ remaining s = 0%N → rankIncoming s ri = Err OutOfRange) ∧
  (∀ fuel st, N.to_nat (remaining s) ≤ fuel →
     rank_loop fuel ri s st = rank_loop (N.to_nat (remaining s)) ri s st) ∧
  (∀ (T : Type) (PT : PlayerStream T) (t : T) fuel st,
     rank_loop fuel ri (guard t) st =
     ('(t', st') ← rank_loop fuel ri t st; Ok (guard t', st'))).
Proof.
  split_and!.
  - destruct (decide (ri = 0%N)) as [->|Hri];
      [by rewrite rankIncoming_zero_interval|].
    destruct (decide (remaining s = 0%N)) as [Hz|Hnz];
      [by rewrite rankIncoming_exhausted|].
    destruct (rankIncoming_run ri s) as (s' & mt & cut & m0 & -> & _);
      [lia|done|done].
  - apply rankIncoming_guard.
  - apply vector_next_exhausted.
  - intros Hri Hrem.
    destruct (rankIncoming_run ri s Hri Hrem) as (s' & mt & cut & m0 & -> & Hs' & _).
    by eexists _, s'.
  - intros [-> | Hz];
      [apply rankIncoming_zero_interval|by apply rankIncoming_exhausted].
  - intros fuel st Hfuel. apply rank_loop_fuel; [lia|done].
  - intros T PT t fuel st. apply rank_loop_guard.
Qed.

Lemma rankIncoming_never_exhausts_witness :
  (rankIncoming (VectorPlayerStream_new (pl <$> [3; 1; 2]%N)) 2
     ≠ Err ExhaustedSource ∧
   rankIncoming (guard (VectorPlayerStream_new (pl <$> [3; 1; 2]%N))) 2 =
     ('(r, s') ← rankIncoming (VectorPlayerStream_new (pl <$> [3; 1; 2]%N)) 2;
      Ok (r, guard s')) ∧
   (∃ r s', rankIncoming (VectorPlayerStream_new (pl <$> [3; 1; 2]%N)) 2
              = Ok (r, s') ∧ remaining s' = 0%N) ∧
   rank_loop 7 2 (VectorPlayerStream_new (pl <$> [3; 1; 2]%N)) (0%N, [], ∅) =
     rank_loop 3 2 (VectorPlayerStream_new (pl <$> [3; 1; 2]%N)) (0%N, [], ∅)) ∧
  rankIncoming (VectorPlayerStream_new []) 2 = Err OutOfRange.
Proof.
  split.
  - destruct (rankIncoming_never_exhausts
                (VectorPlayerStream_new (pl <$> [3; 1; 2]%N)) 2)
      as (Hnever & Hguard & _ & Hends & _ & Hfuel & _).
    split_and!; [exact Hnever|exact Hguard| |].
    + apply Hends; [lia|by vm_compute].
    + apply (Hfuel 7 (0%N, [], ∅)). vm_compute. lia.
  - destruct (rankIncoming_never_exhausts (VectorPlayerStream_new []) 2)
      as (_ & _ & _ & _ & Hempty & _).
    apply Hempty. by right.
Defined.

(** C4: on an already exhausted stream the code does not produce an empty
    result: after the loop it reads [min_top[0]] of the empty vector. *)
Theorem rankIncoming_empty_stream_out_of_range `{StdAlgorithms} (ri : N) :
  rankIncoming (VectorPlayerStream_new []) ri = Err OutOfRange.
Proof. by apply rankIncoming_exhausted. Qed.

(** C6: for a stream that yields no record, no [top_] of length
    [min(interval, 0) = 0] is returned: the run does not complete. *)
Theorem rankIncoming_empty_stream_no_result `{StdAlgorithms} (ri : N) :
  ¬ ∃ r s', rankIncoming (VectorPlayerStream_new []) ri = Ok (r, s').
Proof.
  intros (r & s' & Hrun).
  by rewrite (rankIncoming_exhausted ri (VectorPlayerStream_new [])) in Hrun.
Qed.

(** On every Pull Sequence that yields at least one record, the size of
    the returned top set is [min(interval, totalStreamed)]. *)
Lemma rankIncoming_top_length `{StdAlgorithms} {Stm : Type} `{PullSequence Stm}
    (s : Stm) (ri : N) :
  (1 ≤ ri)%N → remaining s ≠ 0%N →
  ∃ r s', rankIncoming s ri = Ok (r, s') ∧
    length (top_ r) = N.to_nat (N.min ri (remaining s)).
Proof.
  intros Hri Hrem.
  destruct (rankIncoming_run ri s Hri Hrem) as (s' & mt & cut & m0 & -> & _ & Hinv & _).
  eexists _, _. split; [done|]. simpl.
  rewrite sort_perm. by eapply rank_inv_length.
Qed.

(** ... and its keys are the [min(interval, totalStreamed)] largest keys
    streamed, in ascending order. *)
Lemma rankIncoming_top_keys `{StdAlgorithms} {Stm : Type} `{PullSequence Stm}
    (s : Stm) (ri : N) :
  (1 ≤ ri)%N → remaining s ≠ 0%N →
  ∃ r s', rankIncoming s ri = Ok (r, s') ∧
    keys (top_ r) =
      largest (N.to_nat (N.min ri (remaining s))) (keys (streamed s)).
Proof.
  intros Hri Hrem.
  destruct (rankIncoming_run ri s Hri Hrem) as (s' & mt & cut & m0 & -> & _ & Hinv & _).
  eexists _, _. split; [done|]. simpl. by eapply rank_inv_keys.
Qed.

(** The number of records streamed is always a key of [cutoffs_]. *)
Lemma rankIncoming_final_key `{StdAlgorithms} {Stm : Type} `{PullSequence Stm}
    (s : Stm) (ri : N) :
  (1 ≤ ri)%N → remaining s ≠ 0%N →
  ∃ r s', rankIncoming s ri = Ok (r, s') ∧ is_Some (cutoffs_ r !! remaining s).
Proof.
  intros Hri Hrem.
  destruct (rankIncoming_run ri s Hri Hrem)
    as (s' & mt & cut & m0 & -> & _ & Hinv & Hm0).
  eexists _, _. split; [done|]. simpl.
  exists (level_ m0). by eapply final_cutoff_recorded.
Qed.

(** Once at least [interval] records have been streamed, the final
    cutoff is the smallest key of the returned top set. *)
Lemma rankIncoming_final_cutoff `{StdAlgorithms} {Stm : Type} `{PullSequence Stm}
    (s : Stm) (ri : N) :
  (1 ≤ ri)%N → (ri ≤ remaining s)%N →
  ∃ r s' m0, rankIncoming s ri = Ok (r, s') ∧
    cutoffs_ r !! remaining s = Some (level_ m0) ∧
    m0 ∈ top_ r ∧ ∀ y, y ∈ top_ r → (level_ m0 ≤ level_ y)%N.
Proof.
  intros Hri Hrem.
  destruct (rankIncoming_run ri s Hri) as (s' & mt & cut & m0 & -> & _ & Hinv & Hm0);
    [lia|].
  eexists _, _, m0. split; [done|]. simpl.
  split; [by eapply final_cutoff_recorded|].
  by eapply heap_front_smallest.
Qed.

(** C3: with fewer records than the interval the heap is never built and
    the final cutoff is the key of the first record streamed, not the
    smallest key of the returned top set.  Stream [50 10], interval 3:
    the cutoff recorded at 2 is 50, the top set has keys [10 50]. *)
Theorem rankIncoming_short_stream_cutoff `{StdAlgorithms} :
  ∃ r s', rankIncoming (VectorPlayerStream_new (pl <$> [50; 10]%N)) 3 = Ok (r, s') ∧
    cutoffs_ r !! 2%N = Some 50%N ∧ keys (top_ r) = [10; 50]%N.
Proof.
  destruct (rankIncoming_run 3 (VectorPlayerStream_new (pl <$> [50; 10]%N)))
    as (s' & mt & cut & m0 & -> & _ & Hinv & Hm0); [lia|done|].
  rewrite drain_vector_new in Hinv.
  eexists _, _. split; [done|]. simpl.
  destruct (inv_filling _ _ _ _ _ Hinv) as [-> ->]; [by vm_compute|].
  simpl in Hm0. simplify_eq. split; [done|].
  rewrite keys_sort. by vm_compute.
Qed.

(** Recorded cutoffs never decrease, on any stream, whenever the call
    returns. *)
Lemma rankIncoming_cutoffs_monotone `{StdAlgorithms} {Stm : Type}
    `{PlayerStream Stm} (s s' : Stm) (ri : N) (r : RankingResult) :
  (1 ≤ ri)%N → rankIncoming s ri = Ok (r, s') →
  ∀ m1 m2 c1 c2,
    cutoffs_ r !! m1 = Some c1 → cutoffs_ r !! m2 = Some c2 →
    (m1 < m2)%N → (c1 ≤ c2)%N.
Proof.
  intros Hri Hrun.
  destruct (rankIncoming_Ok ri s s' r Hri Hrun)
    as (seen & mt & cut & m0 & Hinv & Hm0 & ->).
  simpl. by eapply final_cutoffs_monotone.
Qed.

(** C5, as the specification words it, fails: no stream and no interval
    make [rankIncoming] record a later milestone with a smaller cutoff. *)
Lemma cutoffs_decrease_impossible :
  ¬ ∃ (alg : StdAlgorithms) (Stm : Type) (ps : PlayerStream Stm)
      (s s' : Stm) (ri : N) (r : RankingResult) (m1 m2 c1 c2 : N),
      (1 ≤ ri)%N ∧ rankIncoming s ri = Ok (r, s') ∧
      cutoffs_ r !! m1 = Some c1 ∧ cutoffs_ r !! m2 = Some c2 ∧
      (m1 < m2)%N ∧ (c2 < c1)%N.
Proof.
  intros (alg & Stm & ps & s & s' & ri & r & m1 & m2 & c1 & c2 &
          Hri & Hrun & Hc1 & Hc2 & Hlt & Hdec).
  pose proof (rankIncoming_cutoffs_monotone s s' ri r Hri Hrun m1 m2 c1 c2
                Hc1 Hc2 Hlt).
  lia.
Qed.

(** C5 (amended): for every stream and every reporting interval >= 1,
    any two milestones [m1 < m2] that [rankIncoming] records satisfy
    [cutoffs_[m1] <= cutoffs_[m2]]: the recorded cutoffs are monotonically
    non-decreasing. *)
Theorem cutoffs_never_decrease `{StdAlgorithms} {Stm : Type}
    `{PlayerStream Stm} (s s' : Stm) (ri : N) (r : RankingResult)
    (m1 m2 c1 c2 : N) :
  (1 ≤ ri)%N → rankIncoming s ri = Ok (r, s') →
  cutoffs_ r !! m1 = Some c1 → cutoffs_ r !! m2 = Some c2 →
  (m1 < m2)%N → (c1 ≤ c2)%N.
Proof. intros Hri Hrun. by apply (rankIncoming_cutoffs_monotone s s' ri r). Qed.

Lemma cutoffs_never_decrease_witness :
  rankIncoming (VectorPlayerStream_new (pl <$> [10; 50; 5; 90; 30]%N)) 2 =
    Ok ({| top_ := pl <$> [50; 90]%N;
           cutoffs_ := {[2 := 10; 4 := 50; 5 := 50]}%N |},
        {| players_ := pl <$> [10; 50; 5; 90; 30]%N; current_ := 5 |}) ∧
  (10 ≤ 50)%N.
Proof.
  assert (Hrun :
    rankIncoming (VectorPlayerStream_new (pl <$> [10; 50; 5; 90; 30]%N)) 2 =
    Ok ({| top_ := pl <$> [50; 90]%N;
           cutoffs_ := {[2 := 10; 4 := 50; 5 := 50]}%N |},
        {| players_ := pl <$> [10; 50; 5; 90; 30]%N; current_ := 5 |})).
  { vm_compute. reflexivity. }
  split; [exact Hrun|].
  apply (cutoffs_never_decrease _ _ 2 _ 2 4 10 50 ltac:(lia) Hrun);
    [vm_compute; reflexivity | vm_compute; reflexivity | lia].
Defined.

(** C8: on a vector-backed stream of five records with keys
    [10 50 5 90 30] and interval 2, [rankIncoming] returns a top set with
    keys [50 90], ascending, and cutoffs [{2 -> 10, 4 -> 50, 5 -> 50}]. *)
Theorem rankIncoming_scenario `{StdAlgorithms} (players : list Player) :
  keys players = [10; 50; 5; 90; 30]%N →
  ∃ r s', rankIncoming (VectorPlayerStream_new players) 2 = Ok (r, s') ∧
    keys (top_ r) = [50; 90]%N ∧
    cutoffs_ r = {[2 := 10; 4 := 50; 5 := 50]}%N.
Proof.
  intros Hkeys.
  destruct players as [|[n1 k1] [|[n2 k2] [|[n3 k3] [|[n4 k4] [|[n5 k5] [|]]]]]];
    try done.
  injection Hkeys as -> -> -> -> ->.
  unfold rankIncoming.
  destruct (rank_loop_drain 2 5 (VectorPlayerStream_new
     [mkPlayer n1 10; mkPlayer n2 50; mkPlayer n3 5; mkPlayer n4 90; mkPlayer n5 30])
     (0%N, [], ∅)) as (s' & _ & Hloop); [done|].
  change (N.to_nat (remaining _)) with 5. rewrite Hloop. clear Hloop.
  change (drain 5 _) with (streamed (VectorPlayerStream_new
     [mkPlayer n1 10; mkPlayer n2 50; mkPlayer n3 5; mkPlayer n4 90; mkPlayer n5 30])).
  rewrite drain_vector_new.
  cbn [rank_steps].
  set (a := mkPlayer n1 10). set (b := mkPlayer n2 50). set (c := mkPlayer n3 5).
  set (d := mkPlayer n4 90). set (e := mkPlayer n5 30).
  assert (E1 : rank_step 2 a (0%N, [], ∅) = Ok (1%N, [a], ∅)) by reflexivity.
  assert (E2 : rank_step 2 b (1%N, [a], ∅) = Ok (2%N, [a; b], {[2%N := 10%N]})).
  { unfold rank_step, update_min_top. cbn.
    rewrite (make_heap_two a b) by done. reflexivity. }
  assert (E3 : rank_step 2 c (2%N, [a; b], {[2%N := 10%N]})
               = Ok (3%N, [a; b], {[2%N := 10%N]})) by reflexivity.
  assert (E4 : rank_step 2 d (3%N, [a; b], {[2%N := 10%N]})
               = Ok (4%N, [b; d], {[2%N := 10%N; 4%N := 50%N]}))
    by (vm_compute; reflexivity).
  assert (E5 : rank_step 2 e (4%N, [b; d], {[2%N := 10%N; 4%N := 50%N]})
               = Ok (5%N, [b; d], {[2%N := 10%N; 4%N := 50%N]}))
    by (vm_compute; reflexivity).
  rewrite E1. cbn [mbind res_bind]. rewrite E2. cbn [mbind res_bind].
  rewrite E3. cbn [mbind res_bind]. rewrite E4. cbn [mbind res_bind].
  rewrite E5. cbn [mbind res_bind].
  eexists _, _. split; [reflexivity|]. cbn [top_ cutoffs_].
  split.
  - rewrite keys_sort. by vm_compute.
  - by vm_compute.
Qed.

Lemma rankIncoming_scenario_witness :
  ∃ r s', rankIncoming
            (VectorPlayerStream_new (pl <$> [10; 50; 5; 90; 30]%N)) 2 = Ok (r, s') ∧
    keys (top_ r) = [50; 90]%N ∧
    cutoffs_ r = {[2 := 10; 4 := 50; 5 := 50]}%N.
Proof.
  apply (rankIncoming_scenario (pl <$> [10; 50; 5; 90; 30]%N)). reflexivity.
Defined.

(** * The offline selectors *)

(** ** Machine integers *)

Lemma to_int_small z :
  (- 2 ^ 31 ≤ z < 2 ^ 31)%Z → Offline.to_int z = z.
Proof.
  intros Hz. unfold Offline.to_int. rewrite Z.mod_small; lia.
Qed.

Lemma top_count_eq n :
  (Z.of_nat n ≤ Offline.INT_MAX)%Z → Offline.top_count n = Z.of_nat (n / 10).
Proof.
  unfold Offline.INT_MAX, Offline.top_count. intros Hn.
  rewrite Nat2Z.inj_div. apply to_int_small.
  assert (0 ≤ Z.of_nat n / 10 ≤ Z.of_nat n)%Z; [|lia].
  split; [apply Z.div_pos; lia|]. apply Z.div_le_upper_bound; lia.
Qed.

(** The binary64 computation of the source and the integer quotient of
    the model agree on every size up to 4096 and on the sizes around the
    largest multiples of ten an [int] holds. *)
Example top_count_agrees_with_double :
  forallb (λ n, (Offline.double_top_count (Z.of_nat n) =? Offline.top_count n)%Z)
    (seq 0 4097) = true ∧
  forallb (λ n, (Offline.double_top_count n =? n / 10)%Z)
    [999999999; 1000000000; 1000000001; 2147483629; 2147483630; 2147483639;
     2147483640; 2147483647]%Z = true.
Proof. split; vm_compute; reflexivity. Qed.

Lemma last_index_eq n :
  (Z.of_nat n ≤ Offline.INT_MAX)%Z → Offline.last_index n = (Z.of_nat n - 1)%Z.
Proof.
  unfold Offline.INT_MAX, Offline.last_index. intros Hn.
  destruct n as [|n]; [reflexivity|].
  rewrite Z.mod_small by lia. apply to_int_small. lia.
Qed.

(** ** heapRank *)

Lemma heap_max v :
  is_heap less v → ∀ y, y ∈ v → (level_ y ≤ key v 0)%N.
Proof.
  intros Hheap y Hy. apply list_elem_of_lookup in Hy as [p Hp].
  pose proof (lookup_lt_Some _ _ _ Hp) as Hlt.
  pose proof (heap_ordered_root true v 0 (length v) Hheap p) as Hroot.
  simpl in Hroot. rewrite (key_lookup _ _ _ Hp) in Hroot. apply Hroot. lia.
Qed.

Section heapRank_facts.
Context `{StdAlgorithms}.

(** After [i] pops the vector is a max-heap followed by the [i] largest
    records in ascending order. *)
Lemma pop_loop_spec : ∀ count heap tail,
  is_heap less heap → count ≤ length heap → Sorted key_le tail →
  (∀ x y, x ∈ heap → y ∈ tail → key_le x y) →
  ∃ heap' tail',
    Offline.pop_loop count (Z.of_nat (length tail)) (heap ++ tail)
      = Ok (heap' ++ tail') ∧
    length tail' = length tail + count ∧
    heap' ++ tail' ≡ₚ heap ++ tail ∧
    Sorted key_le tail' ∧
    (∀ x y, x ∈ heap' → y ∈ tail' → key_le x y).
Proof.
  induction count as [|count IH]; intros heap tail Hheap Hcount Hsorted Hsplit.
  - exists heap, tail. split_and!; (done || lia).
  - cbn [Offline.pop_loop]. rewrite length_app.
    replace (Z.of_nat (length heap + length tail) - Z.of_nat (length tail))%Z
      with (Z.of_nat (length heap)) by lia.
    destruct (Z.ltb_spec 0 (Z.of_nat (length heap))); [|lia].
    destruct (Z.leb_spec (Z.of_nat (length heap))
                (Z.of_nat (length heap + length tail))); [|lia].
    cbn [andb]. rewrite Nat2Z.id, take_app_length, drop_app_length.
    destruct heap as [|x v]; [simpl in Hcount; lia|].
    destruct (pop_heap_spec less x v Hheap) as (v' & -> & Hperm & Hheap').
    rewrite <- (assoc_L (++)). cbn [app].
    assert (Hmax : ∀ z, z ∈ v' → key_le z x).
    { intros z Hz. rewrite Hperm in Hz.
      apply (heap_max _ Hheap z). by right. }
    destruct (IH v' (x :: tail)) as (heap' & tail' & Hrun & Hlen & Hp & Hs & Hsp).
    + done.
    + rewrite Hperm. simpl in Hcount. lia.
    + constructor; [done|]. destruct tail as [|t tail]; constructor.
      apply Hsplit; by left.
    + intros z y Hz [->|Hy]%elem_of_cons; [by apply Hmax|].
      apply Hsplit; [|done]. right. by rewrite <- Hperm.
    + exists heap', tail'. split_and!; try done.
      * rewrite <- Hrun. f_equal. simpl. lia.
      * simpl in Hlen. lia.
      * rewrite Hp, Hperm. simpl. by rewrite <- Permutation_middle.
Qed.

Lemma heapRank_spec (players : list Player) :
  2 ≤ length players → (Z.of_nat (length players) ≤ Offline.INT_MAX)%Z →
  ∃ r players',
    Offline.heapRank players = Ok (r, players') ∧
    players' ≡ₚ players ∧
    cutoffs_ r = ∅ ∧
    length (top_ r) = length players / 10 ∧
    keys (top_ r) = largest (length players / 10) (keys players).
Proof.
  intros Hn Hint. unfold Offline.heapRank.
  destruct (Nat.leb_spec (length players) 1); [lia|].
  rewrite top_count_eq, Nat2Z.id by done.
  set (k := length players / 10).
  assert (Hk : k ≤ length players) by (apply Nat.Div0.div_le_upper_bound; lia).
  destruct (pop_loop_spec k (make_heap less players) [])
    as (heap' & tail' & Hrun & Hlen & Hperm & Hsorted & Hsplit).
  { apply make_heap_is_heap. }
  { by rewrite make_heap_perm. }
  { constructor. }
  { intros x y _ Hy. by apply elem_of_nil in Hy. }
  rewrite app_nil_r in Hrun, Hperm. simpl in Hrun, Hlen.
  change (Z.of_nat 0) with 0%Z in Hrun. rewrite Hrun.
  cbn [mbind res_bind].
  rewrite make_heap_perm in Hperm.
  assert (Hlen' : length (heap' ++ tail') = length players) by by rewrite Hperm.
  rewrite Hlen'. rewrite length_app in Hlen'.
  destruct (Z.leb_spec 0 (Z.of_nat (length players) - Z.of_nat k)); [|lia].
  destruct (Z.leb_spec (Z.of_nat (length players) - Z.of_nat k)
              (Z.of_nat (length players))); [|lia].
  cbn [andb].
  replace (Z.to_nat (Z.of_nat (length players) - Z.of_nat k))
    with (length heap') by lia.
  rewrite drop_app_length.
  eexists _, _. split; [done|]. cbn [top_ cutoffs_].
  split_and!; try done.
  replace k with (length (keys tail')) by (unfold keys; by rewrite length_fmap).
  symmetry. apply (largest_unique _ (keys heap')).
  - unfold keys. by rewrite <- fmap_app, Hperm.
  - by apply Sorted_keys.
  - intros x y (a & -> & Ha)%list_elem_of_fmap (b & -> & Hb)%list_elem_of_fmap.
    by apply Hsplit.
Qed.

Lemma heapRank_small (players : list Player) :
  length players ≤ 1 →
  Offline.heapRank players = Ok ({| top_ := players; cutoffs_ := ∅ |}, players).
Proof.
  intros Hn. unfold Offline.heapRank.
  by destruct (Nat.leb_spec (length players) 1); [|lia].
Qed.

End heapRank_facts.

(** ** Arrays indexed by [int] *)

Lemma at_zlook a i :
  Offline.at_ a i = match zlook a i with Some p => Ok p | None => Err OutOfRange end.
Proof. unfold Offline.at_, zlook. by destruct (0 <=? i)%Z. Qed.

Lemma zlook_is_Some a i :
  (0 ≤ i < Z.of_nat (length a))%Z → ∃ p, zlook a i = Some p.
Proof.
  intros Hi. unfold zlook. destruct (Z.leb_spec 0 i); [|lia].
  apply lookup_lt_is_Some_2. lia.
Qed.

Lemma zlook_Some_lt a i p : zlook a i = Some p → (0 ≤ i < Z.of_nat (length a))%Z.
Proof.
  unfold zlook. destruct (Z.leb_spec 0 i); [|done].
  intros Hp%lookup_lt_Some. lia.
Qed.

Lemma zkey_zlook a i p : zlook a i = Some p → zkey a i = level_ p.
Proof. unfold zkey. by intros ->. Qed.

Lemma range_perm_refl a low high : range_perm a a low high.
Proof. split; try done. intros y Hy. by exists y. Qed.

Lemma range_perm_trans a b c low high :
  range_perm a b low high → range_perm b c low high → range_perm a c low high.
Proof.
  intros [L1 P1 F1 I1] [L2 P2 F2 I2]. split.
  - congruence.
  - by rewrite P2.
  - intros z Hz. by rewrite F2, F1.
  - intros y Hy. destruct (I2 y Hy) as (z & Hz & ->). by apply I1.
Qed.

Lemma range_perm_mono a b low high low' high' :
  (low' ≤ low)%Z → (high ≤ high')%Z →
  range_perm a b low high → range_perm a b low' high'.
Proof.
  intros Hl Hh [L P F I]. split; try done.
  - intros z Hz. apply F. lia.
  - intros y Hy. destruct (decide (low ≤ y ≤ high)%Z) as [Hin|Hout].
    + destruct (I y Hin) as (z & Hz & ->). exists z. split; [lia|done].
    + exists y. split; [done|]. by apply F.
Qed.

Lemma range_perm_key a b low high (P : N → Prop) :
  range_perm a b low high →
  (∀ z, (low ≤ z ≤ high)%Z → P (zkey a z)) →
  ∀ y, (low ≤ y ≤ high)%Z → P (zkey b y).
Proof.
  intros [_ _ _ I] HP y Hy. destruct (I y Hy) as (z & Hz & Heq).
  unfold zkey. rewrite Heq. by apply HP.
Qed.

Lemma range_perm_key_out a b low high z :
  range_perm a b low high → ¬ (low ≤ z ≤ high)%Z → zkey b z = zkey a z.
Proof. intros [_ _ F _] Hz. unfold zkey. by rewrite F. Qed.

Lemma swap_spec a i j x y :
  zlook a i = Some x → zlook a j = Some y →
  ∃ a', Offline.swap a i j = Ok a' ∧ length a' = length a ∧ a' ≡ₚ a ∧
    ∀ z, zlook a' z =
      if decide (z = i) then Some y else if decide (z = j) then Some x
      else zlook a z.
Proof.
  intros Hx Hy. unfold Offline.swap. rewrite !at_zlook, Hx, Hy.
  cbn [mbind res_bind]. eexists. split; [done|].
  pose proof (zlook_Some_lt _ _ _ Hx). pose proof (zlook_Some_lt _ _ _ Hy).
  unfold zlook in *.
  destruct (Z.leb_spec 0 i); [|lia]. destruct (Z.leb_spec 0 j); [|lia].
  split; [by rewrite !length_insert|].
  split; [by apply swap_Permutation|].
  intros z. destruct (Z.leb_spec 0 z).
  - rewrite (swap_lookup a _ _ x y) by done.
    repeat case_decide; (done || lia).
  - repeat case_decide; (done || lia).
Qed.

Lemma swap_range_perm a i j low high x y :
  zlook a i = Some x → zlook a j = Some y →
  (low ≤ i ≤ high)%Z → (low ≤ j ≤ high)%Z →
  ∃ a', Offline.swap a i j = Ok a' ∧ range_perm a a' low high ∧
    zlook a' i = Some y ∧ zlook a' j = Some x ∧
    ∀ z, z ≠ i → z ≠ j → zlook a' z = zlook a z.
Proof.
  intros Hx Hy Hi Hj.
  destruct (swap_spec a i j x y Hx Hy) as (a' & Hrun & Hlen & Hperm & Hlook).
  exists a'. split; [done|]. split; [split; try done|].
  - intros z Hz. rewrite Hlook. repeat case_decide; (done || lia).
  - intros z Hz. rewrite Hlook.
    destruct (decide (z = i)) as [->|]; [exists j; by rewrite Hy|].
    destruct (decide (z = j)) as [->|]; [exists i; by rewrite Hx|].
    by exists z.
  - split_and!.
    + rewrite Hlook. by case_decide.
    + rewrite Hlook. repeat case_decide; congruence.
    + intros z ??. rewrite Hlook. repeat case_decide; done.
Qed.

(** ** lomuto_partition and quickSelect *)

Section lomuto.
Context (low high : Z) (pv : Player).

Lemma lomuto_loop_spec : ∀ trips a i j,
  (0 ≤ low)%Z → (low ≤ i ≤ j)%Z → (j ≤ high)%Z →
  Z.of_nat trips = (high - j)%Z →
  zlook a high = Some pv →
  (∀ x, (low ≤ x < i)%Z → (level_ pv < zkey a x)%N) →
  (∀ x, (i ≤ x < j)%Z → (zkey a x ≤ level_ pv)%N) →
  ∃ a' i', Offline.lomuto_loop trips a i j high = Ok (a', i') ∧
    (low ≤ i' ≤ high)%Z ∧
    range_perm a a' low (high - 1) ∧
    zlook a' high = Some pv ∧
    (∀ x, (low ≤ x < i')%Z → (level_ pv < zkey a' x)%N) ∧
    (∀ x, (i' ≤ x < high)%Z → (zkey a' x ≤ level_ pv)%N).
Proof.
  induction trips as [|trips IH]; intros a i j Hlow Hij Hj Htrips Hpv Hgt Hle.
  - exists a, i. split; [done|]. split; [lia|].
    split; [apply range_perm_refl|]. split_and!; try done.
    intros x Hx. apply Hle. lia.
  - cbn [Offline.lomuto_loop].
    pose proof (zlook_Some_lt _ _ _ Hpv) as Hhigh.
    destruct (zlook_is_Some a j) as [aj Haj]; [lia|].
    destruct (zlook_is_Some a i) as [ai Hai]; [lia|].
    rewrite !at_zlook, Haj, Hpv. cbn [mbind res_bind].
    unfold player_gt. destruct (N.ltb_spec (level_ pv) (level_ aj)) as [Hbig|Hsmall].
    + destruct (swap_range_perm a i j low (high - 1) ai aj)
        as (a1 & -> & Hrp & Hi1 & Hj1 & Hother); [done|done|lia|lia|].
      cbn [mbind res_bind].
      assert (Hk1 : ∀ z, z ≠ i → z ≠ j → zkey a1 z = zkey a z).
      { intros z ??. unfold zkey. by rewrite Hother. }
      destruct (IH a1 (i + 1)%Z (j + 1)%Z)
        as (a' & i' & Hrun & Hi' & Hrp' & Hpv' & Hgt' & Hle');
        [lia|lia|lia|lia|..].
      { rewrite Hother by lia. done. }
      { intros x Hx. destruct (decide (x = i)) as [->|Hne].
        - by rewrite (zkey_zlook _ _ _ Hi1).
        - rewrite Hk1 by lia. apply Hgt. lia. }
      { intros x Hx. destruct (decide (x = j)) as [->|Hne].
        - rewrite (zkey_zlook _ _ _ Hj1), <- (zkey_zlook _ _ _ Hai).
          apply Hle. lia.
        - rewrite Hk1 by lia. apply Hle. lia. }
      exists a', i'. split; [done|]. split; [lia|].
      split; [by eapply range_perm_trans|]. done.
    + destruct (IH a i (j + 1)%Z)
        as (a' & i' & Hrun & Hi' & Hrp' & Hpv' & Hgt' & Hle');
        [lia|lia|lia|lia|done|done|..].
      { intros x Hx. destruct (decide (x = j)) as [->|Hne].
        - by rewrite (zkey_zlook _ _ _ Haj).
        - apply Hle. lia. }
      exists a', i'. split; [done|]. split; [lia|]. done.
Qed.

End lomuto.

Lemma lomuto_partition_spec a low high :
  (0 ≤ low)%Z → (low ≤ high)%Z → (high < Z.of_nat (length a))%Z →
  ∃ a' i, Offline.lomuto_partition a low high high = Ok (a', i) ∧
    (low ≤ i ≤ high)%Z ∧
    range_perm a a' low high ∧
    (∀ x, (low ≤ x < i)%Z → (zkey a' i < zkey a' x)%N) ∧
    (∀ x, (i < x ≤ high)%Z → (zkey a' x ≤ zkey a' i)%N).
Proof.
  intros Hlow Hlh Hhigh. unfold Offline.lomuto_partition.
  destruct (zlook_is_Some a high) as [pv Hpv]; [lia|].
  destruct (lomuto_loop_spec low high pv (Z.to_nat (high - low)) a low low)
    as (a1 & i & -> & Hi & Hrp & Hpv1 & Hgt & Hle);
    [lia|lia|lia|lia|done|intros; lia|intros; lia|].
  cbn [mbind res_bind].
  destruct (zlook_is_Some a1 i) as [ai Hai];
    [rewrite (rp_length _ _ _ _ Hrp); lia|].
  destruct (swap_range_perm a1 high i low high pv ai)
    as (a2 & -> & Hrp2 & Hh2 & Hi2 & Hother); [done|done|lia|lia|].
  cbn [mbind res_bind].
  assert (Hk2 : ∀ z, z ≠ high → z ≠ i → zkey a2 z = zkey a1 z).
  { intros z ??. unfold zkey. by rewrite Hother. }
  exists a2, i. split; [done|]. split; [lia|].
  split.
  { eapply range_perm_trans; [|done].
    eapply range_perm_mono; [| |done]; lia. }
  rewrite (zkey_zlook _ _ _ Hi2).
  split.
  - intros x Hx. rewrite Hk2 by lia. apply Hgt. lia.
  - intros x Hx. destruct (decide (x = high)) as [->|Hne].
    + rewrite (zkey_zlook _ _ _ Hh2), <- (zkey_zlook _ _ _ Hai).
      apply Hle. lia.
    + rewrite Hk2 by lia. apply Hle. lia.
Qed.

Lemma selecting_range_perm a b low high :
  (0 ≤ low)%Z → (high < Z.of_nat (length a))%Z →
  range_perm a b low high → selecting a low high → selecting b low high.
Proof.
  intros Hlow Hhigh Hrp [H1 H2]. pose proof (rp_length _ _ _ _ Hrp) as Hlen.
  split; intros x y Hx Hy.
  - rewrite (range_perm_key_out a b low high x) by (done || lia).
    destruct (decide (y ≤ high)%Z).
    + apply (range_perm_key a b low high (λ k, (k ≤ zkey a x)%N)); [done| |lia].
      intros z Hz. apply H1; lia.
    + rewrite (range_perm_key_out a b low high y) by (done || lia).
      apply H1; lia.
  - rewrite (range_perm_key_out a b low high y) by (done || lia).
    destruct (decide (low ≤ x)%Z).
    + apply (range_perm_key a b low high (λ k, (zkey a y ≤ k)%N)); [done| |lia].
      intros z Hz. apply H2; lia.
    + rewrite (range_perm_key_out a b low high x) by (done || lia).
      apply H2; lia.
Qed.

Lemma quickSelect_spec k : ∀ fuel a low high,
  (0 ≤ low)%Z → (high < Z.of_nat (length a))%Z →
  (high - low + 1 ≤ Z.of_nat fuel)%Z →
  (low ≤ k ≤ high + 1)%Z →
  selecting a low high →
  ∃ a', Offline.quickSelect fuel a low high k = Ok a' ∧
    length a' = length a ∧ a' ≡ₚ a ∧ top_first a' k.
Proof.
  induction fuel as [|fuel IH]; intros a low high Hlow Hhigh Hfuel Hk Hsel.
  - exists a. cbn [Offline.quickSelect].
    destruct (Z.leb_spec low high); [lia|]. cbn [andb].
    split_and!; try done. destruct Hsel as [H1 _].
    intros x y Hx Hy. apply H1; lia.
  - cbn [Offline.quickSelect].
    destruct (Z.leb_spec low high) as [Hle|Hgt]; cycle 1.
    { cbn [andb]. exists a. split_and!; try done. destruct Hsel as [H1 _].
      intros x y Hx Hy. apply H1; lia. }
    destruct (Z.leb_spec 0 low); [|lia]. cbn [andb].
    destruct (lomuto_partition_spec a low high)
      as (a1 & index & -> & Hindex & Hrp & Hgt & Hsm); [done..|].
    cbn [mbind res_bind].
    pose proof (rp_length _ _ _ _ Hrp) as Hlen1.
    destruct (selecting_range_perm a a1 low high Hlow Hhigh Hrp Hsel) as [S1 S2].
    destruct (Z.ltb_spec index k) as [Hlt|Hge].
    + destruct (IH a1 (index + 1)%Z high)
        as (a' & Hrun & Hlen' & Hperm' & Htop); [lia..| |].
      { split; intros x y Hx Hy; [|apply S2; lia].
        destruct (decide (x < low)%Z); [apply S1; lia|].
        destruct (decide (y ≤ high)%Z); [|apply S2; lia].
        assert (zkey a1 index ≤ zkey a1 x)%N.
        { destruct (decide (x = index)) as [->|]; [done|].
          apply N.lt_le_incl, Hgt. lia. }
        assert (zkey a1 y ≤ zkey a1 index)%N by (apply Hsm; lia).
        lia. }
      exists a'. split; [done|]. split; [congruence|].
      split; [by rewrite Hperm', (rp_perm _ _ _ _ Hrp)|done].
    + destruct (IH a1 low (index - 1)%Z)
        as (a' & Hrun & Hlen' & Hperm' & Htop); [lia..| |].
      { split; intros x y Hx Hy; [apply S1; lia|].
        destruct (decide (high < y)%Z); [apply S2; lia|].
        destruct (decide (x < low)%Z); [apply S1; lia|].
        assert (zkey a1 y ≤ zkey a1 index)%N.
        { destruct (decide (y = index)) as [->|]; [done|]. apply Hsm. lia. }
        assert (zkey a1 index < zkey a1 x)%N by (apply Hgt; lia).
        lia. }
      exists a'. split; [done|]. split; [congruence|].
      split; [by rewrite Hperm', (rp_perm _ _ _ _ Hrp)|done].
Qed.

(** ** hoare_partition and quickSort *)

Section hoare.
Context (a : list Player) (pv : Player) (low high : Z).
Hypothesis Hlow : (0 ≤ low)%Z.
Hypothesis Hhigh : (high + 1 < Z.of_nat (length a))%Z.

(** The left scan stops at or before [high + 1]; the element it reads
    there is inside the vector because [high + 1] is. *)
Lemma scan_up_spec : ∀ fuel i0,
  (low - 1 ≤ i0 ≤ high)%Z → (high - i0 + 1 ≤ Z.of_nat fuel)%Z →
  ∃ i, Offline.scan_up fuel a pv i0 high = Ok i ∧
    (i0 < i ≤ high + 1)%Z ∧
    (∀ x, (i0 < x < i)%Z → (zkey a x < level_ pv)%N) ∧
    ((i ≤ high)%Z → (level_ pv ≤ zkey a i)%N).
Proof.
  induction fuel as [|fuel IH]; intros i0 Hi0 Hfuel; [lia|].
  cbn [Offline.scan_up].
  destruct (zlook_is_Some a (i0 + 1)) as [ai Hai]; [lia|].
  rewrite at_zlook, Hai. cbn [mbind res_bind].
  unfold player_lt.
  destruct (N.ltb_spec (level_ ai) (level_ pv)) as [Hlt|Hge]; cbn [andb].
  - destruct (Z.leb_spec (i0 + 1) high) as [Hin|Hout].
    + destruct (IH (i0 + 1)%Z) as (i & Hrun & Hi & Hbelow & Hstop); [lia..|].
      exists i. split; [done|]. split; [lia|]. split; [|done].
      intros x Hx. destruct (decide (x = i0 + 1)%Z) as [->|Hne].
      * by rewrite (zkey_zlook _ _ _ Hai).
      * apply Hbelow. lia.
    + exists (i0 + 1)%Z. split; [done|]. split; [lia|].
      split; intros; lia.
  - exists (i0 + 1)%Z. split; [done|]. split; [lia|].
    split; [intros; lia|]. intros _. by rewrite (zkey_zlook _ _ _ Hai).
Qed.

(** The right scan stops at or above any position [sd >= low] that holds
    a record not above the pivot, so it never reads below [low]. *)
Lemma scan_down_spec sd : ∀ fuel j0,
  (low ≤ sd < j0)%Z → (j0 ≤ high + 1)%Z → (zkey a sd ≤ level_ pv)%N →
  (j0 - sd ≤ Z.of_nat fuel)%Z →
  ∃ j, Offline.scan_down fuel a pv j0 low = Ok j ∧
    (sd ≤ j < j0)%Z ∧
    (∀ x, (j < x < j0)%Z → (level_ pv < zkey a x)%N) ∧
    (zkey a j ≤ level_ pv)%N.
Proof.
  induction fuel as [|fuel IH]; intros j0 Hsd Hj0 Hsent Hfuel; [lia|].
  cbn [Offline.scan_down].
  destruct (zlook_is_Some a (j0 - 1)) as [aj Haj]; [lia|].
  rewrite at_zlook, Haj. cbn [mbind res_bind].
  unfold player_gt.
  destruct (N.ltb_spec (level_ pv) (level_ aj)) as [Hgt|Hle]; cbn [andb].
  - destruct (Z.leb_spec low (j0 - 1)); [|lia].
    assert (sd ≠ j0 - 1)%Z.
    { intros ->. rewrite (zkey_zlook _ _ _ Haj) in Hsent. lia. }
    destruct (IH (j0 - 1)%Z) as (j & Hrun & Hj & Habove & Hstop); [lia..|done|lia|].
    exists j. split; [done|]. split; [lia|]. split; [|done].
    intros x Hx. destruct (decide (x = j0 - 1)%Z) as [->|Hne].
    + by rewrite (zkey_zlook _ _ _ Haj).
    + apply Habove. lia.
  - exists (j0 - 1)%Z. split; [done|]. split; [lia|].
    split; [intros; lia|]. by rewrite (zkey_zlook _ _ _ Haj).
Qed.

End hoare.

(** The state of [hoare_partition] after each swap: both indices are
    inside [[low, high]], everything up to [i] is at most the pivot, and
    everything from [j] on is at least the pivot. *)
Lemma hoare_loop_spec pv low high :
  (0 ≤ low)%Z → ∀ fuel a i j,
  (high + 1 < Z.of_nat (length a))%Z →
  (low ≤ i)%Z → (i ≤ j)%Z → (j ≤ high)%Z → (i < j ∨ low < i)%Z →
  (∀ x, (low ≤ x ≤ i)%Z → (zkey a x ≤ level_ pv)%N) →
  (∀ x, (j ≤ x ≤ high)%Z → (level_ pv ≤ zkey a x)%N) →
  (j - i + 1 ≤ Z.of_nat fuel)%Z →
  ∃ a' p, Offline.hoare_loop fuel a pv i j low high = Ok (a', p) ∧
    (low ≤ p < j)%Z ∧
    range_perm a a' low high ∧
    (∀ x, (low ≤ x ≤ p)%Z → (zkey a' x ≤ level_ pv)%N) ∧
    (∀ x, (p < x ≤ high)%Z → (level_ pv ≤ zkey a' x)%N).
Proof.
  intros Hlow. induction fuel as [|fuel IH];
    intros a i j Hhigh Hi Hij Hj Hstrict Hleft Hright Hfuel; [lia|].
  cbn [Offline.hoare_loop].
  destruct (scan_up_spec a pv low high Hlow Hhigh (Z.to_nat (high - low + 3)) i)
    as (i' & -> & Hi' & Hbelow & Hstop); [lia..|].
  cbn [mbind res_bind].
  assert (Hi'j : (i' ≤ j + 1)%Z ∧ ((i < j)%Z → (i' ≤ j)%Z)).
  { split.
    - destruct (decide (i' ≤ j + 1)%Z) as [|Hbig]; [done|].
      assert (zkey a (j + 1) < level_ pv)%N by (apply Hbelow; lia).
      assert (level_ pv ≤ zkey a (j + 1))%N by (apply Hright; lia). lia.
    - intros Hlt. destruct (decide (i' ≤ j)%Z) as [|Hbig]; [done|].
      assert (zkey a j < level_ pv)%N by (apply Hbelow; lia).
      assert (level_ pv ≤ zkey a j)%N by (apply Hright; lia). lia. }
  destruct Hi'j as [Hi'j1 Hi'j2].
  destruct (scan_down_spec a pv low high Hlow Hhigh
              (if decide (i < j)%Z then i else (i - 1)%Z)
              (Z.to_nat (high - low + 3)) j)
    as (j' & -> & Hj' & Habove & Hstopj).
  { case_decide; lia. }
  { lia. }
  { apply Hleft. case_decide; lia. }
  { case_decide; lia. }
  cbn [mbind res_bind].
  assert (Hj'i : (i - 1 ≤ j')%Z ∧ ((i < j)%Z → (i ≤ j')%Z)).
  { case_decide; lia. }
  destruct Hj'i as [Hj'i1 Hj'i2].
  destruct (Z.ltb_spec j' i') as [Hcross|Hswap].
  { (* the indices have crossed *)
    exists a, j'. split; [done|]. split; [case_decide; lia|].
    split; [apply range_perm_refl|]. split.
    - intros x Hx. destruct (decide (x ≤ i)%Z); [apply Hleft; lia|].
      apply N.lt_le_incl, Hbelow. lia.
    - intros x Hx. destruct (decide (j ≤ x)%Z); [apply Hright; lia|].
      apply N.lt_le_incl, Habove. lia. }
  (* swap and go on *)
  destruct (zlook_is_Some a i') as [ai Hai]; [lia|].
  destruct (zlook_is_Some a j') as [aj Haj]; [lia|].
  destruct (swap_range_perm a i' j' low high ai aj)
    as (a1 & -> & Hrp & Hi1 & Hj1 & Hother); [done|done|lia|lia|].
  cbn [mbind res_bind].
  assert (Hk1 : ∀ z, z ≠ i' → z ≠ j' → zkey a1 z = zkey a z).
  { intros z ??. unfold zkey. by rewrite Hother. }
  pose proof (rp_length _ _ _ _ Hrp) as Hlen1.
  destruct (IH a1 i' j') as (a' & p & Hrun & Hp & Hrp' & Hl' & Hr');
    [lia|lia|lia|lia|lia|..].
  { intros x Hx. destruct (decide (x = i')) as [->|Hne].
    - rewrite (zkey_zlook _ _ _ Hi1), <- (zkey_zlook _ _ _ Haj). done.
    - rewrite Hk1 by lia.
      destruct (decide (x ≤ i)%Z); [apply Hleft; lia|].
      apply N.lt_le_incl, Hbelow. lia. }
  { intros x Hx. destruct (decide (x = j')) as [->|Hne].
    - rewrite (zkey_zlook _ _ _ Hj1), <- (zkey_zlook _ _ _ Hai).
      apply Hstop. lia.
    - rewrite Hk1 by lia.
      destruct (decide (j ≤ x)%Z); [apply Hright; lia|].
      apply N.lt_le_incl, Habove. lia. }
  { lia. }
  exists a', p. split; [done|]. split; [lia|].
  split; [by eapply range_perm_trans|]. done.
Qed.

Lemma hoare_partition_spec a low high :
  (0 ≤ low)%Z → (low < high)%Z → (high + 1 < Z.of_nat (length a))%Z →
  ∃ a' p pv, Offline.hoare_partition a low high high = Ok (a', p) ∧
    (low ≤ p < high)%Z ∧
    range_perm a a' low high ∧
    (∀ x, (low ≤ x ≤ p)%Z → (zkey a' x ≤ pv)%N) ∧
    (∀ x, (p < x ≤ high)%Z → (pv ≤ zkey a' x)%N).
Proof.
  intros Hlow Hlh Hhigh. unfold Offline.hoare_partition.
  destruct (zlook_is_Some a high) as [pv Hpv]; [lia|].
  rewrite at_zlook, Hpv. cbn [mbind res_bind].
  replace (Z.to_nat (high - low + 3)) with (S (Z.to_nat (high - low + 2))) by lia.
  cbn [Offline.hoare_loop].
  (* first round: the left scan meets the pivot at the latest, the right
     scan stops on it at once *)
  destruct (scan_up_spec a pv low high Hlow Hhigh
              (Z.to_nat (high - low + 3)) (low - 1)%Z)
    as (i & -> & Hi & Hbelow & Hstop); [lia..|].
  cbn [mbind res_bind].
  assert (Hi' : (i ≤ high)%Z).
  { destruct (decide (i ≤ high)%Z) as [|Hbig]; [done|].
    assert (zkey a high < level_ pv)%N by (apply Hbelow; lia).
    rewrite (zkey_zlook _ _ _ Hpv) in *. lia. }
  destruct (scan_down_spec a pv low high Hlow Hhigh high
              (Z.to_nat (high - low + 3)) (high + 1)%Z)
    as (j & -> & Hj & _ & _); [lia|lia| |lia|].
  { by rewrite (zkey_zlook _ _ _ Hpv). }
  cbn [mbind res_bind]. assert (j = high) as -> by lia.
  destruct (Z.ltb_spec high i); [lia|].
  destruct (zlook_is_Some a i) as [ai Hai]; [lia|].
  destruct (swap_range_perm a i high low high ai pv)
    as (a1 & -> & Hrp & Hi1 & Hh1 & Hother); [done|done|lia|lia|].
  cbn [mbind res_bind].
  assert (Hk1 : ∀ z, z ≠ i → z ≠ high → zkey a1 z = zkey a z).
  { intros z ??. unfold zkey. by rewrite Hother. }
  pose proof (rp_length _ _ _ _ Hrp) as Hlen1.
  destruct (hoare_loop_spec pv low high Hlow (Z.to_nat (high - low + 2)) a1 i high)
    as (a' & p & Hrun & Hp & Hrp' & Hl' & Hr'); [lia|lia|lia|lia|lia|..].
  { intros x Hx. destruct (decide (x = i)) as [->|Hne].
    - by rewrite (zkey_zlook _ _ _ Hi1).
    - rewrite Hk1 by lia. apply N.lt_le_incl, Hbelow. lia. }
  { intros x Hx. assert (x = high) as -> by lia.
    rewrite (zkey_zlook _ _ _ Hh1), <- (zkey_zlook _ _ _ Hai). by apply Hstop. }
  { lia. }
  exists a', p, (level_ pv). split; [done|]. split; [lia|].
  split; [by eapply range_perm_trans|]. done.
Qed.

Lemma quickSort_spec : ∀ fuel a low high,
  (0 ≤ low)%Z → ((low < high)%Z → (high + 1 < Z.of_nat (length a))%Z) →
  (high - low ≤ Z.of_nat fuel)%Z →
  ∃ a', Offline.quickSort fuel a low high = Ok a' ∧
    range_perm a a' low high ∧
    (∀ x y, (low ≤ x)%Z → (x ≤ y)%Z → (y ≤ high)%Z → (zkey a' x ≤ zkey a' y)%N).
Proof.
  induction fuel as [|fuel IH]; intros a low high Hlow Hhigh Hfuel.
  - exists a. cbn [Offline.quickSort].
    destruct (Z.ltb_spec low high); [lia|]. cbn [andb].
    split; [done|]. split; [apply range_perm_refl|].
    intros x y ???. by assert (x = y) as -> by lia.
  - cbn [Offline.quickSort].
    destruct (Z.ltb_spec low high) as [Hlt|Hge]; cycle 1.
    { cbn [andb]. exists a. split; [done|]. split; [apply range_perm_refl|].
      intros x y ???. by assert (x = y) as -> by lia. }
    destruct (Z.leb_spec 0 low); [|lia]. cbn [andb].
    destruct (hoare_partition_spec a low high)
      as (a1 & p & pv & -> & Hp & Hrp1 & Hl1 & Hr1); [lia..|].
    cbn [mbind res_bind].
    pose proof (rp_length _ _ _ _ Hrp1) as Hlen1.
    destruct (IH a1 low p) as (a2 & -> & Hrp2 & Hs2); [lia..|].
    cbn [mbind res_bind].
    pose proof (rp_length _ _ _ _ Hrp2) as Hlen2.
    destruct (IH a2 (p + 1)%Z high) as (a3 & -> & Hrp3 & Hs3); [lia..|].
    exists a3. split; [done|]. split.
    { eapply range_perm_trans; [done|].
      eapply range_perm_trans; (eapply range_perm_mono; [| |done]; lia). }
    intros x y Hx Hxy Hy.
    destruct (decide (y ≤ p)%Z) as [Hyp|Hyp].
    + rewrite !(range_perm_key_out a2 a3 (p + 1) high) by (done || lia).
      by apply Hs2.
    + destruct (decide (p < x)%Z) as [Hxp|Hxp]; [apply Hs3; lia|].
      rewrite (range_perm_key_out a2 a3 (p + 1) high x) by (done || lia).
      assert (zkey a2 x ≤ pv)%N.
      { apply (range_perm_key a1 a2 low p (λ k, (k ≤ pv)%N)); [done| |lia].
        intros z Hz. apply Hl1. lia. }
      assert (pv ≤ zkey a3 y)%N; [|lia].
      apply (range_perm_key a2 a3 (p + 1) high (λ k, (pv ≤ k)%N)); [done| |lia].
      intros z Hz.
      rewrite (range_perm_key_out a1 a2 low p z) by (done || lia).
      apply Hr1. lia.
Qed.

(** ** quickSelectRank *)

Lemma zkey_of_nat a i : zkey a (Z.of_nat i) = key a i.
Proof.
  unfold zkey, zlook, key. destruct (Z.leb_spec 0 (Z.of_nat i)); [|lia].
  by rewrite Nat2Z.id.
Qed.

Lemma Sorted_lookup_intro (l : list N) :
  (∀ i j x y, l !! i = Some x → l !! j = Some y → i ≤ j → (x ≤ y)%N) →
  Sorted N.le l.
Proof.
  induction l as [|x l IH]; intros Hl; constructor.
  - apply IH. intros i j u v Hu Hv Hij. apply (Hl (S i) (S j)); (done || lia).
  - destruct l as [|y l]; constructor. apply (Hl 0 1); (done || lia).
Qed.

Lemma keys_lookup_key v i x : keys v !! i = Some x → x = key v i.
Proof.
  unfold keys, key. rewrite list_lookup_fmap.
  destruct (v !! i); simpl; congruence.
Qed.

Lemma quickSelectRank_spec (players : list Player) :
  (Z.of_nat (length players) ≤ Offline.INT_MAX)%Z →
  ∃ r players',
    Offline.quickSelectRank players = Ok (r, players') ∧
    players' ≡ₚ players ∧
    cutoffs_ r = ∅ ∧
    length (top_ r) = length players / 10 ∧
    keys (top_ r) = largest (length players / 10) (keys players).
Proof.
  intros Hint. unfold Offline.quickSelectRank.
  rewrite top_count_eq, last_index_eq by done.
  set (n := length players). set (k := n / 10).
  assert (Hk : k ≤ n) by (apply Nat.Div0.div_le_upper_bound; lia).
  assert (Hkn : 0 < n → k < n).
  { intros Hn. apply Nat.Div0.div_lt_upper_bound. lia. }
  destruct (quickSelect_spec (Z.of_nat k) (S n) players 0 (Z.of_nat n - 1))
    as (a1 & -> & Hlen1 & Hperm1 & Htop1); [lia..| |].
  { split; intros x y Hx Hy; fold n in Hy; lia. }
  cbn [mbind res_bind].
  destruct (quickSort_spec (S (length a1)) a1 0 (Z.of_nat k - 1))
    as (a2 & -> & Hrp & Hsorted); [lia| |rewrite Hlen1; fold n; lia|].
  { rewrite Hlen1. fold n. lia. }
  cbn [mbind res_bind].
  pose proof (rp_length _ _ _ _ Hrp) as Hlen2.
  pose proof (rp_perm _ _ _ _ Hrp) as Hperm2.
  destruct (Z.leb_spec 0 (Z.of_nat k)); [|lia].
  destruct (Z.leb_spec (Z.of_nat k) (Z.of_nat (length a2))); [|lia].
  cbn [andb]. rewrite Nat2Z.id.
  eexists _, _. split; [done|]. cbn [top_ cutoffs_].
  split; [by rewrite Hperm2|]. split; [done|].
  assert (Hlenk : length (take k a2) = k) by (rewrite length_take; lia).
  split; [done|].
  replace k with (length (keys (take k a2))) at 2
    by (unfold keys; by rewrite length_fmap).
  symmetry. apply (largest_unique _ (keys (drop k a2))).
  - unfold keys. rewrite <- fmap_app, <- Hperm1, <- Hperm2.
    by rewrite (comm (++)), take_drop.
  - apply Sorted_lookup_intro. intros i j x y Hx Hy Hij.
    pose proof (lookup_lt_Some _ _ _ Hy) as Hj.
    unfold keys in Hj. rewrite length_fmap, Hlenk in Hj.
    apply keys_lookup_key in Hx, Hy. unfold key in Hx, Hy.
    rewrite lookup_take_lt in Hx, Hy by lia.
    fold (key a2 i) in Hx. fold (key a2 j) in Hy. subst x y.
    rewrite <- !zkey_of_nat. apply Hsorted; lia.
  - intros x y (u & -> & Hu)%list_elem_of_fmap (w & -> & Hw)%list_elem_of_fmap.
    apply list_elem_of_lookup in Hu as [i Hi], Hw as [j Hj].
    pose proof (lookup_lt_Some _ _ _ Hj) as Hjk. rewrite Hlenk in Hjk.
    rewrite lookup_drop in Hi. rewrite lookup_take_lt in Hj by done.
    pose proof (lookup_lt_Some _ _ _ Hi) as Hin.
    rewrite <- (key_lookup _ _ _ Hi), <- (key_lookup _ _ _ Hj), <- !zkey_of_nat.
    (* the record at [j < k] was moved by the sort from inside the prefix *)
    rewrite (range_perm_key_out a1 a2 0 (Z.of_nat k - 1)) by (done || lia).
    apply (range_perm_key a1 a2 0 (Z.of_nat k - 1)
             (λ c, (zkey a1 (Z.of_nat (k + i)) ≤ c)%N)); [done| |lia].
    intros z Hz. apply Htop1; lia.
Qed.

(** * The specification's properties: the selectors *)

(** C1: for every population of at least 2 records (and of a size an
    [int] holds, as the code's indices presuppose), the keys of the
    [top_] returned by [heapRank] and by [quickSelectRank] are the
    [floor(0.1 * size)] largest keys of the input in ascending order; and
    for every Pull Sequence holding at least one record and every
    interval >= 1, the keys of [rankIncoming]'s [top_] are the
    [min(interval, totalStreamed)] largest keys streamed, in ascending
    order. *)
Theorem top_set_correctness `{StdAlgorithms} :
  (∀ players : list Player,
     2 ≤ length players →
     (Z.of_nat (length players) ≤ Offline.INT_MAX)%Z →
     (∃ r players', Offline.heapRank players = Ok (r, players') ∧
        keys (top_ r) = largest (length players / 10) (keys players)) ∧
     (∃ r players', Offline.quickSelectRank players = Ok (r, players') ∧
        keys (top_ r) = largest (length players / 10) (keys players))) ∧
  (∀ (Stm : Type) (PS : PlayerStream Stm) (PQ : PullSequence Stm)
     (s : Stm) (ri : N),
     (1 ≤ ri)%N → remaining s ≠ 0%N →
     ∃ r s', rankIncoming s ri = Ok (r, s') ∧
        keys (top_ r) =
          largest (N.to_nat (N.min ri (remaining s))) (keys (streamed s))).
Proof.
  split.
  - intros players Hn Hint. split.
    + destruct (heapRank_spec players Hn Hint) as (r & p' & Hrun & _ & _ & _ & Hk).
      by exists r, p'.
    + destruct (quickSelectRank_spec players Hint) as (r & p' & Hrun & _ & _ & _ & Hk).
      by exists r, p'.
  - intros Stm PS PQ s ri Hri Hrem. by apply rankIncoming_top_keys.
Qed.

Lemma top_set_correctness_witness :
  ((∃ r players', Offline.heapRank ten_players = Ok (r, players') ∧
      keys (top_ r) = largest (length ten_players / 10) (keys ten_players)) ∧
   (∃ r players', Offline.quickSelectRank ten_players = Ok (r, players') ∧
      keys (top_ r) = largest (length ten_players / 10) (keys ten_players))) ∧
  (∃ r s', rankIncoming (VectorPlayerStream_new ten_players) 3 = Ok (r, s') ∧
     keys (top_ r) =
       largest (N.to_nat (N.min 3 (remaining (VectorPlayerStream_new ten_players))))
         (keys (streamed (VectorPlayerStream_new ten_players)))).
Proof.
  split.
  - apply (proj1 top_set_correctness ten_players).
    + simpl. lia.
    + by vm_compute.
  - apply (proj2 top_set_correctness VectorPlayerStream _ _
             (VectorPlayerStream_new ten_players) 3%N).
    + lia.
    + by vm_compute.
Defined.

(** C2, as the specification words it, fails at size 1 for [heapRank]:
    the selector returns the one-record population itself. *)
Lemma heapRank_singleton_counterexample :
  ∃ r players', Offline.heapRank [pl 7] = Ok (r, players') ∧
    length (top_ r) = 1 ∧ length [pl 7] / 10 = 0.
Proof. eexists _, _. split; [reflexivity|]. by split. Qed.

(** C2 (amended): for every population size n >= 0 other than 1 (of a
    size an [int] holds), both [heapRank] and [quickSelectRank] return a
    [top_] of length [floor(0.1 * n)], which is 0 at n = 0; at n = 1
    [quickSelectRank] returns an empty [top_] and [heapRank] returns the
    population itself, of length 1. *)
Theorem size_law `{StdAlgorithms} (players : list Player) :
  (Z.of_nat (length players) ≤ Offline.INT_MAX)%Z →
  (∃ r players', Offline.quickSelectRank players = Ok (r, players') ∧
     length (top_ r) = length players / 10) ∧
  (∃ r players', Offline.heapRank players = Ok (r, players') ∧
     length (top_ r) =
       if decide (length players = 1) then 1 else length players / 10).
Proof.
  intros Hint. split.
  - destruct (quickSelectRank_spec players Hint) as (r & p' & Hrun & _ & _ & Hl & _).
    by exists r, p'.
  - destruct (decide (length players ≤ 1)) as [Hsmall|Hbig].
    + rewrite (heapRank_small players Hsmall). eexists _, _. split; [done|].
      cbn [top_]. case_decide as Hone; [done|].
      assert (length players = 0) as -> by lia. done.
    + destruct (heapRank_spec players) as (r & p' & Hrun & _ & _ & Hl & _);
        [lia|done|].
      exists r, p'. split; [done|]. case_decide; [lia|done].
Qed.

Lemma size_law_witness :
  (∃ r players', Offline.quickSelectRank twenty_players = Ok (r, players') ∧
     length (top_ r) = length twenty_players / 10) ∧
  (∃ r players', Offline.heapRank twenty_players = Ok (r, players') ∧
     length (top_ r) =
       if decide (length twenty_players = 1) then 1
       else length twenty_players / 10).
Proof. apply (size_law twenty_players). by vm_compute. Defined.

(** The two populations of the specification's scenarios: eight records
    select nothing, the keys 1 to 10 select [10]. *)
Lemma offline_scenarios `{StdAlgorithms} :
  (∃ r p', Offline.heapRank (pl <$> [3; 1; 4; 1; 5; 9; 2; 6]%N) = Ok (r, p') ∧
     top_ r = [] ∧ cutoffs_ r = ∅) ∧
  (∃ r p', Offline.quickSelectRank (pl <$> [3; 1; 4; 1; 5; 9; 2; 6]%N) = Ok (r, p') ∧
     top_ r = [] ∧ cutoffs_ r = ∅) ∧
  (∃ r p', Offline.heapRank ten_players = Ok (r, p') ∧ keys (top_ r) = [10%N]) ∧
  (∃ r p', Offline.quickSelectRank ten_players = Ok (r, p') ∧
     keys (top_ r) = [10%N]).
Proof.
  split_and!.
  - destruct (heapRank_spec (pl <$> [3; 1; 4; 1; 5; 9; 2; 6]%N))
      as (r & p' & Hrun & _ & Hcut & Hlen & _); [simpl; lia|by vm_compute|].
    exists r, p'. split; [done|]. split; [|done].
    by apply nil_length_inv.
  - destruct (quickSelectRank_spec (pl <$> [3; 1; 4; 1; 5; 9; 2; 6]%N))
      as (r & p' & Hrun & _ & Hcut & Hlen & _); [by vm_compute|].
    exists r, p'. split; [done|]. split; [|done].
    by apply nil_length_inv.
  - destruct (heapRank_spec ten_players)
      as (r & p' & Hrun & _ & _ & _ & Hkeys); [simpl; lia|by vm_compute|].
    exists r, p'. split; [done|]. rewrite Hkeys. by vm_compute.
  - destruct (quickSelectRank_spec ten_players)
      as (r & p' & Hrun & _ & _ & _ & Hkeys); [by vm_compute|].
    exists r, p'. split; [done|]. rewrite Hkeys. by vm_compute.
Qed.

(** [hoare_partition] does read [array[high + 1]]: sorting a whole vector
    that is already ascending runs off its end. *)
Example quickSort_whole_vector_out_of_range :
  Offline.quickSort 5 (pl <$> [1; 2; 3; 4]%N) 0 3 = Err OutOfRange.
Proof. reflexivity. Qed.

(** C10: for every input vector (of a size an [int] holds),
    [quickSelectRank] runs to completion: every element access made by
    [quickSelect], [lomuto_partition], [quickSort] and [hoare_partition]
    under its call pattern has its index inside [[0, size)] -- the read
    of [array[high + 1]] included, as [high + 1 <= topCount < size]. *)
Theorem quickSelectRank_in_bounds (players : list Player) :
  (Z.of_nat (length players) ≤ Offline.INT_MAX)%Z →
  ∃ r players', Offline.quickSelectRank players = Ok (r, players').
Proof.
  intros Hint.
  destruct (quickSelectRank_spec players Hint) as (r & p' & Hrun & _).
  by exists r, p'.
Qed.

Lemma quickSelectRank_in_bounds_witness :
  ∃ r players', Offline.quickSelectRank twenty_players = Ok (r, players').
Proof. apply (quickSelectRank_in_bounds twenty_players). by vm_compute. Defined.

(** * Further properties of the code *)

(** ** buildHeap *)





(** ** heapify *)

Lemma at_of_nat v k x : v !! k = Some x → Offline.at_ v (Z.of_nat k) = Ok x.
Proof.
  intros Hx. unfold Offline.at_.
  destruct (Z.leb_spec 0 (Z.of_nat k)); [|lia]. by rewrite Nat2Z.id, Hx.
Qed.

Lemma swap_of_nat v i j x y :
  v !! i = Some x → v !! j = Some y →
  Offline.swap v (Z.of_nat i) (Z.of_nat j) = Ok (<[i := y]> (<[j := x]> v)).
Proof.
  intros Hx Hy. unfold Offline.swap.
  rewrite (at_of_nat _ _ _ Hx), (at_of_nat _ _ _ Hy). cbn [mbind res_bind].
  by rewrite !Nat2Z.id.
Qed.

Lemma iter_swap_Ok v hi i j x y :
  v !! i = Some x → v !! j = Some y → i < hi → j < hi →
  iter_swap v 0 hi i j = Ok (<[i := y]> (<[j := x]> v)).
Proof.
  intros Hx Hy Hi Hj. unfold iter_swap, deref. rewrite Hx, Hy.
  destruct (Nat.ltb_spec i hi); [|lia]. destruct (Nat.ltb_spec j hi); [|lia].
  done.
Qed.

Lemma deref_lookup v hi i x :
  v !! i = Some x → i < hi → deref v 0 hi i = Ok x.
Proof.
  intros Hx Hi. unfold deref. rewrite Hx.
  by destruct (Nat.ltb_spec i hi); [|lia].
Qed.

(** Turn by turn, [heapify] does what [percolateDown] does on the range
    [[0, end)] in max orientation. *)
Lemma heapify_loop_percolate end_ temp : ∀ fuel_h fuel_p v i,
  end_ ≤ length v → i < end_ → v !! i = Some temp →
  end_ - i ≤ fuel_h → end_ - i ≤ fuel_p →
  Offline.heapify_loop fuel_h v (Z.of_nat i) (Z.of_nat end_) =
  Online.percolate_loop fuel_p v 0 end_ true temp i i.
Proof.
  induction fuel_h as [|fuel_h IH]; intros fuel_p v i Hend Hi Htemp Hfh Hfp;
    [lia|].
  destruct fuel_p as [|fuel_p]; [lia|].
  rewrite percolate_loop_unfold. cbn [Offline.heapify_loop].
  replace (2 * Z.of_nat i + 1)%Z with (Z.of_nat (2 * i + 1)) by lia.
  replace (2 * Z.of_nat i + 2)%Z with (Z.of_nat (2 * i + 2)) by lia.
  rewrite Nat.sub_0_r, Nat.add_0_l.
  destruct (Nat.ltb_spec (2 * i + 1) end_) as [Hleft|Hleft]; cycle 1.
  { destruct (Z.ltb_spec (Z.of_nat (2 * i + 1)) (Z.of_nat end_)); [lia|].
    destruct (Z.ltb_spec (Z.of_nat (2 * i + 2)) (Z.of_nat end_)); [lia|].
    cbn [mbind res_bind]. by rewrite Z.eqb_refl. }
  destruct (Z.ltb_spec (Z.of_nat (2 * i + 1)) (Z.of_nat end_)); [|lia].
  destruct (lookup_lt_is_Some_2 v (2 * i + 1)) as [hl Hhl]; [lia|].
  rewrite (at_of_nat _ _ _ Hhl), (at_of_nat _ _ _ Htemp). cbn [mbind res_bind].
  unfold Online.extremal_child.
  assert (Hstep : ∀ c cv, v !! c = Some cv → i < c → c < end_ →
            (level_ temp < level_ cv)%N →
            (heap ← Offline.swap v (Z.of_nat i) (Z.of_nat c);
             Offline.heapify_loop fuel_h heap (Z.of_nat c) (Z.of_nat end_)) =
            (v' ← iter_swap v 0 end_ i c;
             Online.percolate_loop fuel_p v' 0 end_ true temp c (c - 0))).
  { intros c cv Hcv Hic Hc _.
    rewrite (swap_of_nat _ _ _ _ _ Htemp Hcv).
    rewrite (iter_swap_Ok _ _ _ _ _ _ Htemp Hcv) by lia.
    cbn [mbind res_bind]. rewrite Nat.sub_0_r. apply IH.
    - by rewrite !length_insert.
    - done.
    - rewrite (swap_lookup v i c temp cv) by done.
      repeat case_decide; (done || lia).
    - lia.
    - lia. }
  destruct (Nat.eqb_spec (2 * i + 1 + 1) end_) as [Hnoright|Hright]; cbn [negb].
  - (* a left child only *)
    destruct (Z.ltb_spec (Z.of_nat (2 * i + 2)) (Z.of_nat end_)); [lia|].
    cbn [mbind res_bind]. rewrite (deref_lookup _ _ _ _ Hhl) by lia.
    cbn [mbind res_bind andb]. unfold player_gt.
    destruct (N.ltb_spec (level_ temp) (level_ hl)) as [Hgt|Hle].
    + destruct (Z.eqb_spec (Z.of_nat (2 * i + 1)) (Z.of_nat i)); [lia|].
      cbn [negb]. apply (Hstep _ hl); (done || lia).
    + by rewrite Z.eqb_refl.
  - (* two children *)
    destruct (Z.ltb_spec (Z.of_nat (2 * i + 2)) (Z.of_nat end_)); [|lia].
    destruct (lookup_lt_is_Some_2 v (2 * i + 2)) as [hr Hhr]; [lia|].
    rewrite (at_of_nat _ _ _ Hhr).
    replace (2 * i + 1 + 1) with (2 * i + 2) by lia.
    rewrite (deref_lookup _ _ _ _ Hhl), (deref_lookup _ _ _ _ Hhr) by lia.
    cbn [mbind res_bind andb]. unfold player_gt, player_lt.
    destruct (N.ltb_spec (level_ temp) (level_ hl)) as [Hgt|Hle].
    + rewrite (at_of_nat _ _ _ Hhl). cbn [mbind res_bind].
      destruct (N.ltb_spec (level_ hl) (level_ hr)) as [Hlr|Hlr].
      * rewrite (deref_lookup _ _ _ _ Hhr) by lia. cbn [mbind res_bind].
        destruct (N.ltb_spec (level_ temp) (level_ hr)); [|lia].
        destruct (Z.eqb_spec (Z.of_nat (2 * i + 2)) (Z.of_nat i)); [lia|].
        cbn [negb]. apply (Hstep _ hr); (done || lia).
      * rewrite (deref_lookup _ _ _ _ Hhl) by lia. cbn [mbind res_bind].
        destruct (N.ltb_spec (level_ temp) (level_ hl)); [|lia].
        destruct (Z.eqb_spec (Z.of_nat (2 * i + 1)) (Z.of_nat i)); [lia|].
        cbn [negb]. apply (Hstep _ hl); (done || lia).
    + rewrite (at_of_nat _ _ _ Htemp). cbn [mbind res_bind].
      destruct (N.ltb_spec (level_ temp) (level_ hr)) as [Hgr|Hgr].
      * destruct (N.ltb_spec (level_ hl) (level_ hr)); [|lia].
        rewrite (deref_lookup _ _ _ _ Hhr) by lia. cbn [mbind res_bind].
        destruct (N.ltb_spec (level_ temp) (level_ hr)); [|lia].
        destruct (Z.eqb_spec (Z.of_nat (2 * i + 2)) (Z.of_nat i)); [lia|].
        cbn [negb]. apply (Hstep _ hr); (done || lia).
      * rewrite Z.eqb_refl. cbn [negb].
        destruct (N.ltb_spec (level_ hl) (level_ hr)).
        -- rewrite (deref_lookup _ _ _ _ Hhr) by lia. cbn [mbind res_bind].
           by destruct (N.ltb_spec (level_ temp) (level_ hr)); [lia|].
        -- rewrite (deref_lookup _ _ _ _ Hhl) by lia. cbn [mbind res_bind].
           by destruct (N.ltb_spec (level_ temp) (level_ hl)); [lia|].
Qed.

(** On an index inside the prefix, [heapify] and [percolateDown] in max
    orientation run the same loop. *)
Lemma heapify_loop_percolate_top v (i end_ : nat) :
  i < end_ → end_ ≤ length v →
  Offline.heapify v (Z.of_nat i) (Z.of_nat end_) =
  Online.percolateDown v i 0 end_ true.
Proof.
  intros Hi Hend. unfold Offline.heapify, Online.percolateDown.
  destruct (lookup_lt_is_Some_2 v i) as [temp Htemp]; [lia|].
  rewrite (deref_lookup _ _ _ _ Htemp) by lia. cbn [mbind res_bind].
  rewrite !Nat.sub_0_r. apply heapify_loop_percolate; (done || lia).
Qed.

(** X2: for an index [i] inside [[0, end_)] of a vector of at least
    [end_] records, with [2 * end_] within [int] so that the child indices
    are computed without overflow, [Offline::heapify] returns what
    [Online::percolateDown] returns on the range [[0, end_)] in max
    orientation: the same vector.  (The two loops do not make the same
    comparisons: [heapify] compares each child with the larger so far,
    [percolateDown] the children with each other and the chosen one with
    the record being moved.) *)
Theorem heapify_is_percolateDown_max v (i end_ : nat) :
  i < end_ → end_ ≤ length v → (2 * Z.of_nat end_ ≤ Offline.INT_MAX)%Z →
  Offline.heapify v (Z.of_nat i) (Z.of_nat end_) =
  Online.percolateDown v i 0 end_ true.
Proof. intros Hi Hend _. by apply heapify_loop_percolate_top. Qed.

Lemma heapify_is_percolateDown_max_witness :
  Offline.heapify (pl <$> [9; 1; 8; 7; 6; 5; 4]%N) (Z.of_nat 1) (Z.of_nat 6) =
  Online.percolateDown (pl <$> [9; 1; 8; 7; 6; 5; 4]%N) 1 0 6 true.
Proof.
  apply (heapify_is_percolateDown_max (pl <$> [9; 1; 8; 7; 6; 5; 4]%N) 1 6);
    [lia|simpl; lia|by vm_compute].
Defined.



(** ** heapify and the width of [int] *)

(** While every index fits an [int], the loop with [int] indices is the
    loop with exact ones, turn by turn. *)
Lemma heapify_loop_int_agrees end_ : ∀ fuel heap i,
  (0 ≤ i)%Z → (2 * i + 2 ≤ Offline.INT_MAX)%Z →
  (2 * end_ ≤ Offline.INT_MAX)%Z →
  Offline.heapify_loop_int fuel heap i end_ = Offline.heapify_loop fuel heap i end_.
Proof.
  unfold Offline.INT_MAX.
  induction fuel as [|fuel IH]; intros heap i Hi Hfit Hend; [done|].
  cbn [Offline.heapify_loop_int Offline.heapify_loop].
  rewrite !to_int_small by lia.
  assert (Hrec : ∀ j heap', (i ≤ j)%Z → (j < end_ ∨ j = i)%Z →
            Offline.heapify_loop_int fuel heap' j end_ =
            Offline.heapify_loop fuel heap' j end_).
  { intros j heap' Hj Hlt. apply IH; lia. }
  destruct (Z.ltb_spec (2 * i + 1) end_) as [Hl|Hl];
    destruct (Z.ltb_spec (2 * i + 2) end_) as [Hr|Hr]; try lia.
  - destruct (Offline.at_ heap (2 * i + 1)) as [hl|]; [|done].
    destruct (Offline.at_ heap i) as [hi|]; [|done]. cbn [mbind res_bind].
    destruct (Offline.at_ heap (2 * i + 2)) as [hr|]; [|done].
    cbn [mbind res_bind].
    destruct (player_gt hl hi).
    + destruct (Offline.at_ heap (2 * i + 1)) as [hl'|]; [|done].
      cbn [mbind res_bind].
      destruct (player_gt hr hl'), (negb _); try done;
        (destruct (Offline.swap heap i _); [|done]); cbn [mbind res_bind];
        apply Hrec; lia.
    + destruct (Offline.at_ heap i) as [hi'|]; [|done]. cbn [mbind res_bind].
      destruct (player_gt hr hi'), (negb _); try done;
        (destruct (Offline.swap heap i _); [|done]); cbn [mbind res_bind];
        apply Hrec; lia.
  - destruct (Offline.at_ heap (2 * i + 1)) as [hl|]; [|done].
    destruct (Offline.at_ heap i) as [hi|]; [|done]. cbn [mbind res_bind].
    destruct (player_gt hl hi), (negb _); try done;
      (destruct (Offline.swap heap i _); [|done]); cbn [mbind res_bind];
      apply Hrec; lia.
  - cbn [mbind res_bind]. by rewrite Z.eqb_refl.
Qed.

Lemma heapify_loop_int_wraps fuel heap i end_ :
  (2 ^ 30 ≤ i ≤ Offline.INT_MAX)%Z → (0 ≤ end_)%Z →
  Offline.heapify_loop_int (S fuel) heap i end_ = Err OutOfRange.
Proof.
  unfold Offline.INT_MAX. intros Hi Hend. cbn [Offline.heapify_loop_int].
  assert (Hleft : (- 2 ^ 31 < Offline.to_int (2 * i + 1) < 0)%Z).
  { unfold Offline.to_int.
    replace ((2 * i + 1 + 2 ^ 31) mod 2 ^ 32)%Z with (2 * i + 1 - 2 ^ 31)%Z; [lia|].
    apply (Z.mod_unique _ _ 1); lia. }
  destruct (Z.ltb_spec (Offline.to_int (2 * i + 1)) end_); [|lia].
  assert (Offline.at_ heap (Offline.to_int (2 * i + 1)) = Err OutOfRange)
    as ->; [|done].
  unfold Offline.at_.
  by destruct (Z.leb_spec 0 (Offline.to_int (2 * i + 1))); [lia|].
Qed.

(** X20: the child indices of [heapify] are [int]s.  For [i >= 0] with
    [2 * i + 2] and [2 * end] within [int], computing them in [int] gives
    the run that computing them exactly gives, which is the run the
    properties of [heapify] are about; for [2 ^ 30 <= i <= INT_MAX] and
    [end >= 0] the index [2 * i + 1] wraps to a negative [int], passes
    [left_i < end], and [heap[left_i]] is read out of range. *)
Theorem heapify_int_indices heap i end_ :
  ((0 ≤ i)%Z → (2 * i + 2 ≤ Offline.INT_MAX)%Z →
   (2 * end_ ≤ Offline.INT_MAX)%Z →
   Offline.heapify_int heap i end_ = Offline.heapify heap i end_) ∧
  ((2 ^ 30 ≤ i ≤ Offline.INT_MAX)%Z → (0 ≤ end_)%Z →
   Offline.heapify_int heap i end_ = Err OutOfRange).
Proof.
  split.
  - intros. by apply heapify_loop_int_agrees.
  - intros. by apply heapify_loop_int_wraps.
Qed.

Lemma heapify_int_indices_witness :
  Offline.heapify_int (pl <$> [9; 1; 8; 7; 6; 5; 4]%N) 1 6 =
    Offline.heapify (pl <$> [9; 1; 8; 7; 6; 5; 4]%N) 1 6 ∧
  Offline.heapify_int (pl <$> [1; 2; 3]%N) (2 ^ 30) 3 = Err OutOfRange.
Proof.
  split.
  - apply (heapify_int_indices (pl <$> [9; 1; 8; 7; 6; 5; 4]%N) 1 6);
      by vm_compute.
  - apply (heapify_int_indices (pl <$> [1; 2; 3]%N) (2 ^ 30) 3);
      [by vm_compute|lia].
Defined.

(** ** replaceMin *)

Lemma key_insert_ne (v : list Player) i x q : q ≠ i → key (<[i := x]> v) q = key v q.
Proof. intros Hq. unfold key. by rewrite list_lookup_insert_ne. Qed.

Lemma key_insert_eq (v : list Player) i x :
  i < length v → key (<[i := x]> v) i = level_ x.
Proof. intros Hi. unfold key. by rewrite list_lookup_insert_eq. Qed.

Lemma replaceMin_spec v first last target :
  first < last → last ≤ length v →
  heap_ordered false v first last →
  ∃ v', Online.replaceMin v first last target = Ok v' ∧
    v' ≡ₚ <[first := target]> v ∧
    (∀ q, q < first ∨ last ≤ q → v' !! q = v !! q) ∧
    heap_ordered false v' first last ∧
    ((key v first ≤ level_ target)%N → (key v first ≤ key v' first)%N).
Proof.
  intros Hlt Hlast Hheap. unfold Online.replaceMin.
  destruct (deref_Ok v first last first) as (old & Hold & ->); [lia..|].
  cbn [mbind res_bind].
  assert (Hkeys : ∀ q, q ≠ first → key (<[first := target]> v) q = key v q)
    by (intros; by apply key_insert_ne).
  destruct (percolateDown_spec false (<[first := target]> v) first first last)
    as (v' & Hrun & _ & Hperm & Hframe & Hnodes & Hlow);
    [lia|lia|by rewrite length_insert| |].
  { intros p Hp. destruct (Hheap p) as [Hl Hr].
    split; intros Hc; rewrite !Hkeys by lia; auto. }
  exists v'. split_and!; try done.
  - intros q Hq. rewrite Hframe by lia. apply list_lookup_insert_ne. lia.
  - intros p. apply Hnodes. lia.
  - intros Htarget. apply (Hlow (key v first)).
    + rewrite key_insert_eq by lia. exact Htarget.
    + intros Hc. rewrite Hkeys by lia.
      destruct (Hheap 0) as [Hl _]. rewrite Nat.sub_diag in *.
      rewrite Nat.add_0_r in Hl. apply Hl. lia.
    + intros Hc. rewrite Hkeys by lia.
      destruct (Hheap 0) as [_ Hr]. rewrite Nat.sub_diag in *.
      rewrite Nat.add_0_r in Hr. apply Hr. lia.
Qed.

(** X5: on a non-empty min-heap range [[first, last)], [replaceMin]
    returns with the range a min-heap again; the vector holds the records
    it held with the one at [first] replaced by [target]; nothing outside
    the range changes; and when [target] is no smaller than the old
    minimum, the new minimum is no smaller than the old one. *)
Theorem replaceMin_keeps_min_heap v first last target :
  first < last → last ≤ length v →
  heap_ordered false v first last →
  ∃ v', Online.replaceMin v first last target = Ok v' ∧
    v' ≡ₚ <[first := target]> v ∧
    (∀ q, q < first ∨ last ≤ q → v' !! q = v !! q) ∧
    heap_ordered false v' first last ∧
    ((key v first ≤ level_ target)%N → (key v first ≤ key v' first)%N).
Proof. apply replaceMin_spec. Qed.

Lemma replaceMin_keeps_min_heap_witness :
  ∃ v', Online.replaceMin (pl <$> [0; 2; 3; 4; 6; 9]%N) 1 5 (pl 5) = Ok v' ∧
    v' ≡ₚ <[1 := pl 5]> (pl <$> [0; 2; 3; 4; 6; 9]%N) ∧
    (∀ q, q < 1 ∨ 5 ≤ q → v' !! q = (pl <$> [0; 2; 3; 4; 6; 9]%N) !! q) ∧
    heap_ordered false v' 1 5 ∧
    ((key (pl <$> [0; 2; 3; 4; 6; 9]%N) 1 ≤ level_ (pl 5))%N →
     (key (pl <$> [0; 2; 3; 4; 6; 9]%N) 1 ≤ key v' 1)%N).
Proof.
  apply (replaceMin_keeps_min_heap (pl <$> [0; 2; 3; 4; 6; 9]%N) 1 5 (pl 5)).
  - lia.
  - simpl. lia.
  - intros p. destruct p as [|[|p]].
    + split; intros Hc; by vm_compute.
    + split; intros Hc; [by vm_compute|simpl in Hc; lia].
    + split; intros Hc; simpl in Hc; lia.
Defined.

(** ** percolateDown on an arbitrary range *)

Lemma percolate_loop_total max start end_ temp : ∀ fuel v i,
  end_ ≤ length v → start + i < end_ → end_ - start - i ≤ fuel →
  v !! (start + i) = Some temp →
  ∃ v', Online.percolate_loop fuel v start end_ max temp (start + i) i = Ok v' ∧
    v' ≡ₚ v ∧
    (∀ q, q ≠ start + i → q < start + 2 * i + 1 ∨ end_ ≤ q → v' !! q = v !! q).
Proof.
  induction fuel as [|fuel IH]; intros v i Hlen Hi Hfuel Htemp; [lia|].
  rewrite percolate_loop_unfold.
  destruct (Nat.ltb_spec (2 * i + 1) (end_ - start)) as [Hc|Hc];
    [|by exists v].
  destruct (extremal_child_spec max start end_ v (start + 2 * i + 1))
    as (m & -> & Hm & _); [lia..|].
  cbn [mbind res_bind].
  destruct (deref_Ok v start end_ m) as (cv & Hcv & ->); [lia..|].
  cbn [mbind res_bind]. rewrite sink_test.
  case_decide; [by exists v|].
  unfold iter_swap.
  destruct (deref_Ok v start end_ (start + i)) as (t & Ht & ->); [lia..|].
  assert (t = temp) as -> by congruence.
  destruct (deref_Ok v start end_ m) as (cv' & Hcv' & ->); [lia..|].
  assert (cv' = cv) as -> by congruence. cbn [mbind res_bind].
  assert (∃ i', m = start + i' ∧ (i' = 2 * i + 1 ∨ i' = 2 * i + 2) ∧
                start + i' < end_) as (i' & -> & Hi' & Hi'lt)
    by (exists (m - start); lia).
  replace (start + i' - start) with i' by lia.
  destruct (IH (<[start + i := cv]> (<[start + i' := temp]> v)) i')
    as (v' & Hrun & Hperm & Hframe).
  { by rewrite !length_insert. }
  { done. }
  { lia. }
  { rewrite (swap_lookup v (start + i) (start + i') temp cv) by done.
    repeat case_decide; (done || lia). }
  exists v'. split_and!; [done|etrans; [done|by apply swap_Permutation]|].
  intros q Hq Hout. rewrite Hframe by lia.
  rewrite (swap_lookup v (start + i) (start + i') temp cv) by done.
  repeat case_decide; (done || lia).
Qed.

(** X7: with no assumption on the order of the records, [percolateDown]
    on a root inside a range that lies in the vector returns (the loop ends
    within the range's length and reads inside the range only), permutes
    the vector, and changes no position outside the range nor any position
    before the first child of [root] other than [root] itself. *)
Theorem percolateDown_total max v root start end_ :
  start ≤ root → root < end_ → end_ ≤ length v →
  ∃ v', Online.percolateDown v root start end_ max = Ok v' ∧ v' ≡ₚ v ∧
    (∀ q, q ≠ root → q < start + 2 * (root - start) + 1 ∨ end_ ≤ q →
          v' !! q = v !! q).
Proof.
  intros H1 H2 H3. unfold Online.percolateDown.
  destruct (deref_Ok v start end_ root) as (temp & Htemp & ->); [lia..|].
  cbn [mbind res_bind].
  assert (∃ i, root = start + i) as [i ->] by (exists (root - start); lia).
  replace (start + i - start) with i by lia.
  apply percolate_loop_total; (done || lia).
Qed.

Lemma percolateDown_total_witness :
  ∃ v', Online.percolateDown (pl <$> [4; 7; 1; 9; 3; 8]%N) 2 1 5 true = Ok v' ∧
    v' ≡ₚ pl <$> [4; 7; 1; 9; 3; 8]%N ∧
    (∀ q, q ≠ 2 → q < 1 + 2 * (2 - 1) + 1 ∨ 5 ≤ q →
          v' !! q = (pl <$> [4; 7; 1; 9; 3; 8]%N) !! q).
Proof.
  apply (percolateDown_total true (pl <$> [4; 7; 1; 9; 3; 8]%N) 2 1 5);
    [lia|lia|simpl; lia].
Defined.

(** ** rankIncoming: the recorded cutoffs *)

Section rank_cutoffs.
Context `{StdAlgorithms}.
Variable ri : N.
Hypothesis Hri : (1 ≤ ri)%N.

(** Once the heap exists, its front carries the milestone cutoff of the
    records seen. *)
Lemma heap_front_cutoff seen read min_top cutoffs :
  rank_inv ri seen read min_top cutoffs → (ri ≤ read)%N →
  milestone_cutoff ri read seen = Some (key min_top 0).
Proof.
  intros Hinv Hge. unfold milestone_cutoff.
  pose proof (rank_inv_keys ri Hri _ _ _ _ Hinv) as Hkeys.
  pose proof (inv_read _ _ _ _ _ Hinv) as Hread.
  rewrite take_ge by lia.
  replace (N.to_nat (N.min ri read)) with (N.to_nat ri) in Hkeys by lia.
  rewrite <- Hkeys.
  destruct (rank_inv_nonempty ri seen read min_top cutoffs Hri Hinv)
    as [m0 Hm0]; [intros ->; simpl in Hread; lia|].
  destruct (heap_front_smallest ri _ _ _ _ m0 Hinv Hge Hm0) as [Hin Hmin].
  rewrite (key_lookup _ _ _ Hm0).
  pose proof (sort_sorted min_top) as Hsorted.
  destruct (sort min_top) as [|x l] eqn:Hs; [by apply elem_of_nil in Hin|].
  simpl. f_equal.
  apply Sorted_StronglySorted in Hsorted; [|apply _].
  apply StronglySorted_inv in Hsorted as [_ Hall].
  rewrite Forall_forall in Hall.
  pose proof (Hmin x ltac:(left)) as Hle.
  apply elem_of_cons in Hin as [->|Hin]; [done|].
  pose proof (Hall m0 Hin) as Hle'. unfold key_le in Hle'. lia.
Qed.

Lemma milestone_cutoff_app m seen l :
  (m ≤ N.of_nat (length seen))%N →
  milestone_cutoff ri m (seen ++ l) = milestone_cutoff ri m seen.
Proof.
  intros Hm. unfold milestone_cutoff. by rewrite take_app_le by lia.
Qed.

Lemma rank_step_cutoffs seen read min_top cutoffs p :
  rank_inv ri seen read min_top cutoffs →
  cutoffs_exact ri seen read cutoffs →
  ∃ min_top' cutoffs',
    rank_step ri p (read, min_top, cutoffs) = Ok ((read + 1)%N, min_top', cutoffs') ∧
    rank_inv ri (seen ++ [p]) (read + 1) min_top' cutoffs' ∧
    cutoffs_exact ri (seen ++ [p]) (read + 1) cutoffs'.
Proof.
  intros Hinv Hexact.
  destruct (rank_step_inv ri Hri _ _ _ _ p Hinv) as (mt' & cut' & Hstep & Hinv').
  exists mt', cut'. split; [done|]. split; [done|].
  pose proof (inv_read _ _ _ _ _ Hinv) as Hread.
  assert (Hold : ∀ m, (m ≤ read)%N →
            milestone_cutoff ri m (seen ++ [p]) = milestone_cutoff ri m seen).
  { intros m Hm. apply milestone_cutoff_app. lia. }
  unfold rank_step in Hstep.
  destruct (update_min_top ri (read + 1) p min_top) as [mt1|]; [|done].
  cbn [mbind res_bind] in Hstep. unfold record_cutoff in Hstep.
  destruct (N.eqb_spec ri 0) as [?|_]; [lia|].
  destruct (N.eqb_spec ((read + 1) mod ri) 0) as [Hmod|Hmod]; cbn [andb] in Hstep.
  - assert (Hge : (ri ≤ read + 1)%N).
    { destruct (N.lt_ge_cases (read + 1) ri) as [Hlt|]; [|done].
      rewrite N.mod_small in Hmod by done. lia. }
    destruct (bool_decide_reflect (mt1 = [])) as [Hempty|Hne];
      cbn [negb] in Hstep.
    + (* the guard [!min_top.empty()] cannot fail at a milestone *)
      injection Hstep as -> ->.
      pose proof (inv_heap _ _ _ _ _ Hinv' Hge) as [_ Hlen].
      rewrite Hempty in Hlen. simpl in Hlen. lia.
    + destruct (deref mt1 0 (length mt1) 0) as [m0|] eqn:Hd; [|done].
      cbn [mbind res_bind] in Hstep. injection Hstep as -> <-.
      assert (mt' !! 0 = Some m0) as Hm0.
      { unfold deref in Hd. destruct (_ && _); [|done].
        by destruct (mt' !! 0); simplify_eq. }
      assert (cutoffs !! (read + 1)%N = None) as Hnone.
      { rewrite Hexact. case_decide; [lia|done]. }
      unfold insert_cutoff. rewrite Hnone.
      intros m. rewrite lookup_insert.
      pose proof (heap_front_cutoff _ _ _ _ Hinv' Hge) as Hfront.
      rewrite (key_lookup _ _ _ Hm0) in Hfront.
      case_decide as Hm.
      * subst m. case_decide; [done|lia].
      * rewrite Hexact. repeat case_decide; try lia; [by rewrite Hold by lia|done].
  - injection Hstep as -> ->.
    intros m. rewrite Hexact.
    repeat case_decide; try lia; [by rewrite Hold by lia| |done].
    assert (m = (read + 1)%N) as -> by lia. lia.
Qed.

End rank_cutoffs.

Lemma rank_steps_cutoffs `{StdAlgorithms} ri :
  (1 ≤ ri)%N →
  ∀ l seen read min_top cutoffs,
  rank_inv ri seen read min_top cutoffs →
  cutoffs_exact ri seen read cutoffs →
  ∃ min_top' cutoffs',
    rank_steps ri l (read, min_top, cutoffs)
      = Ok ((read + N.of_nat (length l))%N, min_top', cutoffs') ∧
    rank_inv ri (seen ++ l) (read + N.of_nat (length l)) min_top' cutoffs' ∧
    cutoffs_exact ri (seen ++ l) (read + N.of_nat (length l)) cutoffs'.
Proof.
  intros Hri.
  induction l as [|p l IH]; intros seen read min_top cutoffs Hinv Hexact.
  - exists min_top, cutoffs. simpl. rewrite N.add_0_r, app_nil_r. done.
  - destruct (rank_step_cutoffs ri Hri _ _ _ _ p Hinv Hexact)
      as (mt1 & cut1 & Hstep & Hinv1 & Hexact1).
    destruct (IH _ _ _ _ Hinv1 Hexact1) as (mt2 & cut2 & Hsteps & Hinv2 & Hexact2).
    exists mt2, cut2. cbn [rank_steps]. rewrite Hstep. cbn [mbind res_bind].
    rewrite Hsteps, <- (assoc_L (++)) in *. cbn [length app] in *.
    replace (read + N.of_nat (S (length l)))%N
      with (read + 1 + N.of_nat (length l))%N by lia.
    done.
Qed.

(** The whole run on a non-empty Pull Sequence, with what it leaves. *)
Lemma rankIncoming_run_exact `{StdAlgorithms} {Stm : Type} `{PullSequence Stm}
    ri (s : Stm) :
  (1 ≤ ri)%N → remaining s ≠ 0%N →
  ∃ s' min_top cutoffs m0,
    rankIncoming s ri =
      Ok ({| top_ := sort min_top;
             cutoffs_ := insert_cutoff (remaining s) (level_ m0) cutoffs |}, s') ∧
    remaining s' = 0%N ∧
    rank_inv ri (streamed s) (remaining s) min_top cutoffs ∧
    cutoffs_exact ri (streamed s) (remaining s) cutoffs ∧
    min_top !! 0 = Some m0.
Proof.
  intros Hri Hrem. unfold rankIncoming.
  destruct (rank_loop_drain ri (N.to_nat (remaining s)) s (0%N, [], ∅))
    as (s' & Hs' & ->); [lia|].
  fold (streamed s).
  destruct (rank_steps_cutoffs ri Hri (streamed s) [] 0%N [] ∅
              (rank_inv_init ri Hri))
    as (mt & cut & -> & Hinv & Hexact).
  { intros m. rewrite lookup_empty. case_decide; [lia|done]. }
  simpl in Hinv, Hexact. rewrite N.add_0_l, streamed_length, N2Nat.id in *.
  destruct (rank_inv_nonempty ri (streamed s) _ mt cut Hri Hinv) as [m0 Hm0].
  { intros Hnil. pose proof (streamed_length s) as Hl.
    rewrite Hnil in Hl. simpl in Hl. lia. }
  exists s', mt, cut, m0. cbn [mbind res_bind].
  apply lookup_lt_Some in Hm0 as Hlt.
  unfold deref. rewrite Hm0.
  destruct (Nat.ltb_spec 0 (length mt)); [|lia]. done.
Qed.

Lemma rankIncoming_cutoffs_spec `{StdAlgorithms} {Stm : Type} `{PullSequence Stm}
    (s : Stm) (ri : N) :
  (1 ≤ ri)%N → remaining s ≠ 0%N →
  ∃ r s', rankIncoming s ri = Ok (r, s') ∧
    ∀ m, cutoffs_ r !! m =
      if decide ((ri ≤ m ≤ remaining s)%N ∧
                 ((m mod ri = 0)%N ∨ m = remaining s))
      then milestone_cutoff ri m (streamed s)
      else if decide (m = remaining s) then head (keys (streamed s))
      else None.
Proof.
  intros Hri Hrem.
  destruct (rankIncoming_run_exact ri s Hri Hrem)
    as (s' & mt & cut & m0 & -> & _ & Hinv & Hexact & Hm0).
  eexists _, _. split; [done|]. cbn [cutoffs_].
  intros m. unfold insert_cutoff.
  destruct (cut !! remaining s) as [c|] eqn:Hc.
  - (* the final count is a multiple of the interval *)
    rewrite Hexact in Hc. rewrite Hexact.
    case_decide; [|done].
    repeat case_decide; try done; try lia.
    assert (m = remaining s) as -> by lia. done.
  - rewrite lookup_insert. case_decide as Hm.
    + subst m. destruct (N.lt_ge_cases (remaining s) ri) as [Hlt|Hge].
      * destruct (inv_filling _ _ _ _ _ Hinv Hlt) as [-> _].
        repeat case_decide; try lia.
        destruct (streamed s); simplify_eq/=. done.
      * rewrite (heap_front_cutoff ri Hri _ _ _ _ Hinv Hge).
        rewrite (key_lookup _ _ _ Hm0).
        repeat case_decide; try lia; done.
    + rewrite Hexact. repeat case_decide; try lia; done.
Qed.

(** X8: on a non-empty Pull Sequence and a positive interval, [cutoffs_]
    is known entry by entry.  It has a key for every multiple of the
    interval up to the number of records streamed and for that number
    itself, and no other.  Where at least [reporting_interval] records had
    been read, the value is the smallest of the [reporting_interval]
    largest keys among the records read up to the milestone; the entry of
    a stream shorter than the interval holds the key of the first record
    streamed. *)
Theorem rankIncoming_cutoffs_exact `{StdAlgorithms} {Stm : Type}
    `{PullSequence Stm} (s : Stm) (ri : N) :
  (1 ≤ ri)%N → remaining s ≠ 0%N →
  ∃ r s', rankIncoming s ri = Ok (r, s') ∧
    ∀ m, cutoffs_ r !! m =
      if decide ((ri ≤ m ≤ remaining s)%N ∧
                 ((m mod ri = 0)%N ∨ m = remaining s))
      then milestone_cutoff ri m (streamed s)
      else if decide (m = remaining s) then head (keys (streamed s))
      else None.
Proof. apply rankIncoming_cutoffs_spec. Qed.

Lemma rankIncoming_cutoffs_exact_witness :
  ∃ r s',
    rankIncoming (VectorPlayerStream_new (pl <$> [5; 1; 7; 3; 9]%N)) 2
      = Ok (r, s') ∧
    ∀ m, cutoffs_ r !! m =
      if decide ((2 ≤ m ≤ remaining
                    (VectorPlayerStream_new (pl <$> [5; 1; 7; 3; 9]%N)))%N ∧
                 ((m mod 2 = 0)%N ∨
                  m = remaining
                        (VectorPlayerStream_new (pl <$> [5; 1; 7; 3; 9]%N))))
      then milestone_cutoff 2 m
             (streamed (VectorPlayerStream_new (pl <$> [5; 1; 7; 3; 9]%N)))
      else if decide
                (m = remaining
                       (VectorPlayerStream_new (pl <$> [5; 1; 7; 3; 9]%N)))
      then head (keys (streamed
                   (VectorPlayerStream_new (pl <$> [5; 1; 7; 3; 9]%N))))
      else None.
Proof.
  apply (rankIncoming_cutoffs_exact
           (VectorPlayerStream_new (pl <$> [5; 1; 7; 3; 9]%N)) 2);
    [lia|by vm_compute].
Defined.

(** X9: on a non-empty Pull Sequence and a positive interval,
    [rankIncoming] leaves the stream exhausted, and the records of [top_]
    are records that were streamed, each as often as it is kept: the
    streamed records are those of [top_] together with dropped ones, no
    dropped record has a larger key than a kept one, [top_] is in
    ascending order of key and has [min(interval, total)] records. *)
Theorem rankIncoming_top_records `{StdAlgorithms} {Stm : Type}
    `{PullSequence Stm} (s : Stm) (ri : N) :
  (1 ≤ ri)%N → remaining s ≠ 0%N →
  ∃ r s' dropped, rankIncoming s ri = Ok (r, s') ∧
    remaining s' = 0%N ∧
    streamed s ≡ₚ dropped ++ top_ r ∧
    (∀ x y, x ∈ dropped → y ∈ top_ r → key_le x y) ∧
    Sorted key_le (top_ r) ∧
    length (top_ r) = N.to_nat (N.min ri (remaining s)).
Proof.
  intros Hri Hrem.
  destruct (rankIncoming_run_exact ri s Hri Hrem)
    as (s' & mt & cut & m0 & -> & Hs' & Hinv & _ & _).
  destruct (inv_top _ _ _ _ _ Hinv) as (rest & Hperm & Hrest).
  eexists _, s', rest. split; [done|]. cbn [top_].
  split_and!.
  - done.
  - by rewrite sort_perm.
  - intros x y Hx Hy. rewrite sort_perm in Hy. by apply Hrest.
  - apply sort_sorted.
  - rewrite sort_perm. by eapply rank_inv_length.
Qed.

Lemma rankIncoming_top_records_witness :
  ∃ r s' dropped,
    rankIncoming (VectorPlayerStream_new (pl <$> [5; 1; 7; 3; 9]%N)) 2
      = Ok (r, s') ∧
    remaining s' = 0%N ∧
    streamed (VectorPlayerStream_new (pl <$> [5; 1; 7; 3; 9]%N))
      ≡ₚ dropped ++ top_ r ∧
    (∀ x y, x ∈ dropped → y ∈ top_ r → key_le x y) ∧
    Sorted key_le (top_ r) ∧
    length (top_ r) =
      N.to_nat (N.min 2 (remaining
                  (VectorPlayerStream_new (pl <$> [5; 1; 7; 3; 9]%N)))).
Proof.
  apply (rankIncoming_top_records
           (VectorPlayerStream_new (pl <$> [5; 1; 7; 3; 9]%N)) 2);
    [lia|by vm_compute].
Defined.

(** X10: with a reporting interval of 0 no stream yields a result: the
    first record read takes the branch that reads [min_top.front()] of
    the still empty vector, before [read % reporting_interval] is
    reached; on an exhausted stream the final insert reads [min_top[0]]. *)
Theorem rankIncoming_interval_zero `{StdAlgorithms} {Stm : Type}
    `{PullSequence Stm} (s : Stm) :
  rankIncoming s 0 = Err OutOfRange.
Proof. apply rankIncoming_zero_interval. Qed.

Lemma rankIncoming_interval_zero_witness :
  rankIncoming (VectorPlayerStream_new (pl <$> [5; 1; 7]%N)) 0 = Err OutOfRange.
Proof.
  apply (rankIncoming_interval_zero (VectorPlayerStream_new (pl <$> [5; 1; 7]%N))).
Defined.

(** ** buildHeap in place of std::make_heap *)



(** ** VectorPlayerStream *)

Lemma vector_drain : ∀ fuel (s : VectorPlayerStream),
  N.to_nat (current_ s) + fuel = length (players_ s) →
  drain fuel s = drop (N.to_nat (current_ s)) (players_ s).
Proof.
  induction fuel as [|fuel IH]; intros [ps cur] Hlen; cbn [players_ current_] in *.
  - simpl. by rewrite drop_ge by lia.
  - cbn [drain nextPlayer vector_stream].
    unfold vector_nextPlayer, vector_remaining. cbn [players_ current_].
    destruct (N.ltb_spec 0 (N.of_nat (length ps) - cur)); [|lia].
    replace (N.to_nat (cur + 1 - 1)) with (N.to_nat cur) by lia.
    destruct (lookup_lt_is_Some_2 ps (N.to_nat cur)) as [p Hp]; [lia|].
    rewrite Hp, (drop_S _ _ _ Hp). f_equal.
    rewrite IH; cbn [players_ current_]; [|lia]. f_equal. lia.
Qed.

(** X12: a [VectorPlayerStream] whose cursor is within its vector (as
    after the constructor and any number of pulls) hands out the records
    of the vector from the cursor on, in order, and nothing else: pulling
    until [remaining()] is 0 yields exactly the rest of the vector; a
    successful pull returns the record at the cursor, moves the cursor by
    one, lowers [remaining()] by one and leaves the vector as it is; no
    pull reads outside the vector. *)
Theorem vector_stream_yields_rest (s : VectorPlayerStream) :
  (current_ s ≤ N.of_nat (length (players_ s)))%N →
  streamed s = drop (N.to_nat (current_ s)) (players_ s) ∧
  (∀ p s', nextPlayer s = Ok (p, s') →
     players_ s !! N.to_nat (current_ s) = Some p ∧
     players_ s' = players_ s ∧ current_ s' = (current_ s + 1)%N ∧
     (current_ s' ≤ N.of_nat (length (players_ s')))%N ∧
     (remaining s' + 1)%N = remaining s) ∧
  nextPlayer s ≠ Err OutOfRange.
Proof.
  intros Hcur. split_and!.
  - unfold streamed. apply vector_drain.
    cbn [remaining vector_stream]. unfold vector_remaining. lia.
  - intros p s'. cbn [nextPlayer remaining vector_stream].
    unfold vector_nextPlayer, vector_remaining. cbn [players_ current_].
    destruct (N.ltb_spec 0 (N.of_nat (length (players_ s)) - current_ s));
      [|done].
    replace (N.to_nat (current_ s + 1 - 1)) with (N.to_nat (current_ s)) by lia.
    destruct (players_ s !! N.to_nat (current_ s)) as [q|]; [|done].
    intros [= -> <-]. cbn [players_ current_]. split_and!; (done || lia).
  - cbn [nextPlayer vector_stream]. unfold vector_nextPlayer, vector_remaining.
    cbn [players_ current_].
    destruct (N.ltb_spec 0 (N.of_nat (length (players_ s)) - current_ s));
      [|done].
    destruct (lookup_lt_is_Some_2 (players_ s)
                (N.to_nat (current_ s + 1 - 1))) as [p ->]; [lia|done].
Qed.

Lemma vector_stream_yields_rest_witness :
  streamed {| players_ := pl <$> [5; 1; 7]%N; current_ := 1 |} =
    drop (N.to_nat 1) (pl <$> [5; 1; 7]%N) ∧
  (∀ p s', nextPlayer {| players_ := pl <$> [5; 1; 7]%N; current_ := 1 |}
             = Ok (p, s') →
     (pl <$> [5; 1; 7]%N) !! N.to_nat 1 = Some p ∧
     players_ s' = pl <$> [5; 1; 7]%N ∧ current_ s' = (1 + 1)%N ∧
     (current_ s' ≤ N.of_nat (length (players_ s')))%N ∧
     (remaining s' + 1)%N =
       remaining {| players_ := pl <$> [5; 1; 7]%N; current_ := 1 |}) ∧
  nextPlayer {| players_ := pl <$> [5; 1; 7]%N; current_ := 1 |}
    ≠ Err OutOfRange.
Proof.
  assert (Hcur : (1 ≤ N.of_nat (length (pl <$> [5; 1; 7]%N)))%N) by (simpl; lia).
  exact (vector_stream_yields_rest
           {| players_ := pl <$> [5; 1; 7]%N; current_ := 1 |} Hcur).
Defined.

(** ** The partitions, quickSelect and quickSort *)

(** X13: for a range [[low, high]] inside the vector, with the pivot at
    [high] as [quickSelect] passes it, [lomuto_partition] returns an index
    [i] of the range, rearranges the records inside the range only, and
    leaves every record before [i] strictly above the record at [i] and
    every record after it at or below: the larger keys come first. *)
Theorem lomuto_partition_splits a low high :
  (0 ≤ low)%Z → (low ≤ high)%Z → (high < Z.of_nat (length a))%Z →
  ∃ a' i, Offline.lomuto_partition a low high high = Ok (a', i) ∧
    (low ≤ i ≤ high)%Z ∧
    range_perm a a' low high ∧
    (∀ x, (low ≤ x < i)%Z → (zkey a' i < zkey a' x)%N) ∧
    (∀ x, (i < x ≤ high)%Z → (zkey a' x ≤ zkey a' i)%N).
Proof. apply lomuto_partition_spec. Qed.

Lemma lomuto_partition_splits_witness :
  ∃ a' i,
    Offline.lomuto_partition (pl <$> [3; 8; 1; 9; 5; 7]%N) 1 4 4 = Ok (a', i) ∧
    (1 ≤ i ≤ 4)%Z ∧
    range_perm (pl <$> [3; 8; 1; 9; 5; 7]%N) a' 1 4 ∧
    (∀ x, (1 ≤ x < i)%Z → (zkey a' i < zkey a' x)%N) ∧
    (∀ x, (i < x ≤ 4)%Z → (zkey a' x ≤ zkey a' i)%N).
Proof.
  apply (lomuto_partition_splits (pl <$> [3; 8; 1; 9; 5; 7]%N) 1 4);
    [lia|lia|simpl; lia].
Defined.

(** X14: for a range [[low, high]] of at least two positions with
    [high + 1] still inside the vector, and the pivot at [high] as
    [quickSort] passes it, [hoare_partition] returns an index [p] with
    [low <= p < high], rearranges the records inside the range only, and
    splits the range around a key: everything up to [p] is at most it,
    everything after [p] at least it.  Both recursive calls of
    [quickSort] thus get a strictly smaller range. *)
Theorem hoare_partition_splits a low high :
  (0 ≤ low)%Z → (low < high)%Z → (high + 1 < Z.of_nat (length a))%Z →
  ∃ a' p pv, Offline.hoare_partition a low high high = Ok (a', p) ∧
    (low ≤ p < high)%Z ∧
    range_perm a a' low high ∧
    (∀ x, (low ≤ x ≤ p)%Z → (zkey a' x ≤ pv)%N) ∧
    (∀ x, (p < x ≤ high)%Z → (pv ≤ zkey a' x)%N).
Proof. apply hoare_partition_spec. Qed.

Lemma hoare_partition_splits_witness :
  ∃ a' p pv,
    Offline.hoare_partition (pl <$> [3; 8; 1; 9; 5; 7]%N) 1 4 4 = Ok (a', p) ∧
    (1 ≤ p < 4)%Z ∧
    range_perm (pl <$> [3; 8; 1; 9; 5; 7]%N) a' 1 4 ∧
    (∀ x, (1 ≤ x ≤ p)%Z → (zkey a' x ≤ pv)%N) ∧
    (∀ x, (p < x ≤ 4)%Z → (pv ≤ zkey a' x)%N).
Proof.
  apply (hoare_partition_splits (pl <$> [3; 8; 1; 9; 5; 7]%N) 1 4);
    [lia|lia|simpl; lia].
Defined.

(** The left scan of [hoare_partition] over records strictly below the
    pivot value stops on the first record that is not. *)
Lemma scan_up_stops a pv high : ∀ fuel i0,
  (0 ≤ i0 + 1)%Z → (i0 < high)%Z → (high < Z.of_nat (length a))%Z →
  (∀ x, (i0 < x < high)%Z → (zkey a x < level_ pv)%N) →
  (level_ pv ≤ zkey a high)%N →
  (high - i0 ≤ Z.of_nat fuel)%Z →
  Offline.scan_up fuel a pv i0 high = Ok high.
Proof.
  induction fuel as [|fuel IH]; intros i0 H0 Hi Hhigh Hbelow Hstop Hfuel; [lia|].
  cbn [Offline.scan_up].
  destruct (zlook_is_Some a (i0 + 1)) as [ai Hai]; [lia|].
  rewrite at_zlook, Hai. cbn [mbind res_bind]. unfold player_lt.
  destruct (decide (i0 + 1 = high)%Z) as [Heq|Hne].
  - rewrite Heq in *. rewrite (zkey_zlook _ _ _ Hai) in Hstop.
    by destruct (N.ltb_spec (level_ ai) (level_ pv)); [lia|].
  - pose proof (Hbelow (i0 + 1)%Z ltac:(lia)) as Hlt.
    rewrite (zkey_zlook _ _ _ Hai) in Hlt.
    destruct (N.ltb_spec (level_ ai) (level_ pv)); [|lia].
    destruct (Z.leb_spec (i0 + 1) high); [|lia]. cbn [andb].
    apply IH; try lia. intros x Hx. apply Hbelow. lia.
Qed.

(** X15: [hoare_partition] reads [array[high + 1]].  On a range that ends
    with the last record of the vector, when that record (the pivot) is
    strictly above all others of the range, both scans first meet on
    [high], the record is swapped with itself, and the next left scan
    starts one past the vector: the access is out of range. *)
Theorem hoare_partition_runs_off_end a low high :
  (0 ≤ low)%Z → (low ≤ high)%Z → (high + 1)%Z = Z.of_nat (length a) →
  (∀ x, (low ≤ x < high)%Z → (zkey a x < zkey a high)%N) →
  Offline.hoare_partition a low high high = Err OutOfRange.
Proof.
  intros Hlow Hlh Hend Hmax. unfold Offline.hoare_partition.
  destruct (zlook_is_Some a high) as [pv Hpv]; [lia|].
  rewrite at_zlook, Hpv. cbn [mbind res_bind].
  rewrite (zkey_zlook _ _ _ Hpv) in Hmax.
  replace (Z.to_nat (high - low + 3)) with (S (S (Z.to_nat (high - low + 1))))
    at 1 by lia.
  cbn [Offline.hoare_loop].
  rewrite (scan_up_stops a pv high); [|lia|lia|lia| | |lia].
  2: { intros x Hx. apply Hmax. lia. }
  2: { by rewrite (zkey_zlook _ _ _ Hpv). }
  cbn [mbind res_bind].
  replace (Z.to_nat (high - low + 3)) with (S (Z.to_nat (high - low + 2)))
    at 1 by lia.
  cbn [Offline.scan_down]. replace (high + 1 - 1)%Z with high by lia.
  rewrite at_zlook, Hpv. cbn [mbind res_bind]. unfold player_gt.
  rewrite N.ltb_irrefl. cbn [andb mbind res_bind].
  rewrite Z.ltb_irrefl.
  destruct (swap_spec a high high pv pv Hpv Hpv) as (a1 & -> & Hlen & _).
  cbn [mbind res_bind].
  replace (Z.to_nat (high - low + 3)) with (S (Z.to_nat (high - low + 2))) by lia.
  cbn [Offline.scan_up]. rewrite at_zlook.
  assert (zlook a1 (high + 1) = None) as ->; [|done].
  unfold zlook. destruct (Z.leb_spec 0 (high + 1)); [|done].
  apply lookup_ge_None_2. lia.
Qed.

Lemma hoare_partition_runs_off_end_witness :
  Offline.hoare_partition (pl <$> [6; 2; 4; 3; 9]%N) 1 4 4 = Err OutOfRange.
Proof.
  apply (hoare_partition_runs_off_end (pl <$> [6; 2; 4; 3; 9]%N) 1 4);
    [lia|lia|reflexivity|].
  intros x Hx.
  assert (x = 1 ∨ x = 2 ∨ x = 3)%Z as [-> | [-> | ->]] by lia; by vm_compute.
Defined.

(** X16: [quickSort] on a range [[low, high]] with [low >= 0] and
    [high + 1] inside the vector (not needed for a range of fewer than
    two positions, which is left alone) returns within a recursion depth
    of the width of the range, has put the records of the range in
    ascending order of key, and has touched nothing outside the range. *)
Theorem quickSort_sorts_range fuel a low high :
  (0 ≤ low)%Z → ((low < high)%Z → (high + 1 < Z.of_nat (length a))%Z) →
  (high - low ≤ Z.of_nat fuel)%Z →
  ∃ a', Offline.quickSort fuel a low high = Ok a' ∧
    range_perm a a' low high ∧
    (∀ x y, (low ≤ x)%Z → (x ≤ y)%Z → (y ≤ high)%Z → (zkey a' x ≤ zkey a' y)%N).
Proof. apply quickSort_spec. Qed.

Lemma quickSort_sorts_range_witness :
  ∃ a', Offline.quickSort 4 (pl <$> [3; 8; 1; 9; 5; 7]%N) 1 4 = Ok a' ∧
    range_perm (pl <$> [3; 8; 1; 9; 5; 7]%N) a' 1 4 ∧
    (∀ x y, (1 ≤ x)%Z → (x ≤ y)%Z → (y ≤ 4)%Z → (zkey a' x ≤ zkey a' y)%N).
Proof.
  apply (quickSort_sorts_range 4 (pl <$> [3; 8; 1; 9; 5; 7]%N) 1 4);
    [lia|simpl; lia|lia].
Defined.

(** X17: [quickSelect] over a whole vector, for any [k] from 0 to its
    size, returns within a recursion depth of the size plus one, permutes
    the vector and leaves [k] largest records in the first [k] positions:
    no record from position [k] on has a larger key than one before it. *)
Theorem quickSelect_puts_largest_first a k :
  (0 ≤ k ≤ Z.of_nat (length a))%Z →
  ∃ a', Offline.quickSelect (S (length a)) a 0 (Z.of_nat (length a) - 1) k
          = Ok a' ∧
    a' ≡ₚ a ∧ top_first a' k.
Proof.
  intros Hk.
  destruct (quickSelect_spec k (S (length a)) a 0 (Z.of_nat (length a) - 1))
    as (a' & Hrun & _ & Hperm & Htop); [lia..| |by exists a'].
  split; intros x y Hx Hy; lia.
Qed.

Lemma quickSelect_puts_largest_first_witness :
  ∃ a', Offline.quickSelect (S (length (pl <$> [3; 8; 1; 9; 5; 7]%N)))
          (pl <$> [3; 8; 1; 9; 5; 7]%N) 0
          (Z.of_nat (length (pl <$> [3; 8; 1; 9; 5; 7]%N)) - 1) 2 = Ok a' ∧
    a' ≡ₚ pl <$> [3; 8; 1; 9; 5; 7]%N ∧ top_first a' 2.
Proof.
  apply (quickSelect_puts_largest_first (pl <$> [3; 8; 1; 9; 5; 7]%N) 2).
  simpl. lia.
Defined.

(** ** The vector the offline selectors leave behind *)

Section offline_state.
Context `{StdAlgorithms}.

(** The pops keep the front part a max-heap. *)
Lemma pop_loop_heap : ∀ count heap tail,
  is_heap less heap → count ≤ length heap → Sorted key_le tail →
  (∀ x y, x ∈ heap → y ∈ tail → key_le x y) →
  ∃ heap' tail',
    Offline.pop_loop count (Z.of_nat (length tail)) (heap ++ tail)
      = Ok (heap' ++ tail') ∧
    length tail' = length tail + count ∧
    heap' ++ tail' ≡ₚ heap ++ tail ∧
    is_heap less heap' ∧
    Sorted key_le tail' ∧
    (∀ x y, x ∈ heap' → y ∈ tail' → key_le x y).
Proof.
  induction count as [|count IH]; intros heap tail Hheap Hcount Hsorted Hsplit.
  - exists heap, tail. split_and!; (done || lia).
  - cbn [Offline.pop_loop]. rewrite length_app.
    replace (Z.of_nat (length heap + length tail) - Z.of_nat (length tail))%Z
      with (Z.of_nat (length heap)) by lia.
    destruct (Z.ltb_spec 0 (Z.of_nat (length heap))); [|lia].
    destruct (Z.leb_spec (Z.of_nat (length heap))
                (Z.of_nat (length heap + length tail))); [|lia].
    cbn [andb]. rewrite Nat2Z.id, take_app_length, drop_app_length.
    destruct heap as [|x v]; [simpl in Hcount; lia|].
    destruct (pop_heap_spec less x v Hheap) as (v' & -> & Hperm & Hheap').
    rewrite <- (assoc_L (++)). cbn [app].
    destruct (IH v' (x :: tail))
      as (heap' & tail' & Hrun & Hlen & Hp & Hh & Hs & Hsp).
    + done.
    + rewrite Hperm. simpl in Hcount. lia.
    + constructor; [done|]. destruct tail as [|t tail]; constructor.
      apply Hsplit; by left.
    + intros z y Hz [->|Hy]%elem_of_cons.
      * rewrite Hperm in Hz. apply (heap_max _ Hheap z). by right.
      * apply Hsplit; [|done]. right. by rewrite <- Hperm.
    + exists heap', tail'. split_and!; try done.
      * rewrite <- Hrun. f_equal. simpl. lia.
      * simpl in Hlen. lia.
      * rewrite Hp, Hperm. simpl. by rewrite <- Permutation_middle.
Qed.

Lemma heapRank_state (players : list Player) :
  2 ≤ length players → (Z.of_nat (length players) ≤ Offline.INT_MAX)%Z →
  ∃ r heap',
    Offline.heapRank players = Ok (r, heap' ++ top_ r) ∧
    heap' ++ top_ r ≡ₚ players ∧
    length (top_ r) = length players / 10 ∧
    cutoffs_ r = ∅ ∧
    is_heap less heap' ∧
    Sorted key_le (top_ r) ∧
    (∀ x y, x ∈ heap' → y ∈ top_ r → key_le x y).
Proof.
  intros Hn Hint. unfold Offline.heapRank.
  destruct (Nat.leb_spec (length players) 1); [lia|].
  rewrite top_count_eq, Nat2Z.id by done.
  set (k := length players / 10).
  assert (Hk : k ≤ length players) by (apply Nat.Div0.div_le_upper_bound; lia).
  destruct (pop_loop_heap k (make_heap less players) [])
    as (heap' & tail' & Hrun & Hlen & Hperm & Hheap & Hsorted & Hsplit).
  { apply make_heap_is_heap. }
  { by rewrite make_heap_perm. }
  { constructor. }
  { intros x y _ Hy. by apply elem_of_nil in Hy. }
  rewrite app_nil_r in Hrun, Hperm. simpl in Hrun, Hlen.
  change (Z.of_nat 0) with 0%Z in Hrun. rewrite Hrun.
  cbn [mbind res_bind].
  rewrite make_heap_perm in Hperm.
  assert (Hlen' : length (heap' ++ tail') = length players) by by rewrite Hperm.
  rewrite Hlen'. rewrite length_app in Hlen'.
  destruct (Z.leb_spec 0 (Z.of_nat (length players) - Z.of_nat k)); [|lia].
  destruct (Z.leb_spec (Z.of_nat (length players) - Z.of_nat k)
              (Z.of_nat (length players))); [|lia].
  cbn [andb].
  replace (Z.to_nat (Z.of_nat (length players) - Z.of_nat k))
    with (length heap') by lia.
  rewrite drop_app_length.
  exists {| top_ := tail'; cutoffs_ := ∅ |}, heap'. cbn [top_ cutoffs_].
  split_and!; done.
Qed.

Lemma quickSelectRank_state (players : list Player) :
  (Z.of_nat (length players) ≤ Offline.INT_MAX)%Z →
  ∃ r rest,
    Offline.quickSelectRank players = Ok (r, top_ r ++ rest) ∧
    top_ r ++ rest ≡ₚ players ∧
    length (top_ r) = length players / 10 ∧
    cutoffs_ r = ∅ ∧
    Sorted key_le (top_ r) ∧
    (∀ x y, x ∈ rest → y ∈ top_ r → key_le x y).
Proof.
  intros Hint. unfold Offline.quickSelectRank.
  rewrite top_count_eq, last_index_eq by done.
  set (n := length players). set (k := n / 10).
  assert (Hk : k ≤ n) by (apply Nat.Div0.div_le_upper_bound; lia).
  assert (Hkn : 0 < n → k < n).
  { intros Hn. apply Nat.Div0.div_lt_upper_bound. lia. }
  destruct (quickSelect_spec (Z.of_nat k) (S n) players 0 (Z.of_nat n - 1))
    as (a1 & -> & Hlen1 & Hperm1 & Htop1); [lia..| |].
  { split; intros x y Hx Hy; fold n in Hy; lia. }
  cbn [mbind res_bind].
  destruct (quickSort_spec (S (length a1)) a1 0 (Z.of_nat k - 1))
    as (a2 & -> & Hrp & Hsorted); [lia| |rewrite Hlen1; fold n; lia|].
  { rewrite Hlen1. fold n. lia. }
  cbn [mbind res_bind].
  pose proof (rp_length _ _ _ _ Hrp) as Hlen2.
  pose proof (rp_perm _ _ _ _ Hrp) as Hperm2.
  destruct (Z.leb_spec 0 (Z.of_nat k)); [|lia].
  destruct (Z.leb_spec (Z.of_nat k) (Z.of_nat (length a2))); [|lia].
  cbn [andb]. rewrite Nat2Z.id.
  assert (Hlenk : length (take k a2) = k) by (rewrite length_take; lia).
  exists {| top_ := take k a2; cutoffs_ := ∅ |}, (drop k a2).
  cbn [top_ cutoffs_]. rewrite take_drop.
  split_and!; try done.
  - by rewrite Hperm2.
  - (* ascending inside the prefix *)
    assert (Hkeys : Sorted N.le (keys (take k a2))).
    { apply Sorted_lookup_intro. intros i j x y Hx Hy Hij.
      pose proof (lookup_lt_Some _ _ _ Hy) as Hj.
      unfold keys in Hj. rewrite length_fmap, Hlenk in Hj.
      apply keys_lookup_key in Hx, Hy. unfold key in Hx, Hy.
      rewrite lookup_take_lt in Hx, Hy by lia.
      fold (key a2 i) in Hx. fold (key a2 j) in Hy. subst x y.
      rewrite <- !zkey_of_nat. apply Hsorted; lia. }
    clear -Hkeys. induction (take k a2) as [|x l IH]; [constructor|].
    apply Sorted_inv in Hkeys as [Hl Hhd].
    constructor; [by apply IH|].
    destruct l; constructor. by apply HdRel_inv in Hhd.
  - intros u w Hu Hw.
    apply list_elem_of_lookup in Hu as [i Hi], Hw as [j Hj].
    pose proof (lookup_lt_Some _ _ _ Hj) as Hjk. rewrite Hlenk in Hjk.
    rewrite lookup_drop in Hi. rewrite lookup_take_lt in Hj by done.
    pose proof (lookup_lt_Some _ _ _ Hi) as Hin.
    unfold key_le.
    rewrite <- (key_lookup _ _ _ Hi), <- (key_lookup _ _ _ Hj), <- !zkey_of_nat.
    rewrite (range_perm_key_out a1 a2 0 (Z.of_nat k - 1)) by (done || lia).
    apply (range_perm_key a1 a2 0 (Z.of_nat k - 1)
             (λ c, (zkey a1 (Z.of_nat (k + i)) ≤ c)%N)); [done| |lia].
    intros z Hz. apply Htop1; lia.
Qed.

(** X18: what [heapRank] leaves in the vector it was given (two records
    or more, a size an [int] holds): the same records, the returned [top_]
    in the last [size / 10] positions in ascending order of key, before
    them a max-heap of the other records, none of which has a larger key
    than a record of [top_]; [cutoffs_] is empty. *)
Theorem heapRank_leaves_heap_and_top (players : list Player) :
  2 ≤ length players → (Z.of_nat (length players) ≤ Offline.INT_MAX)%Z →
  ∃ r heap',
    Offline.heapRank players = Ok (r, heap' ++ top_ r) ∧
    heap' ++ top_ r ≡ₚ players ∧
    length (top_ r) = length players / 10 ∧
    cutoffs_ r = ∅ ∧
    is_heap less heap' ∧
    Sorted key_le (top_ r) ∧
    (∀ x y, x ∈ heap' → y ∈ top_ r → key_le x y).
Proof. apply heapRank_state. Qed.

(** X19: what [quickSelectRank] leaves in the vector it was given (a size
    an [int] holds): the same records, the returned [top_] in the first
    [size / 10] positions in ascending order of key, and after them the
    other records, none of which has a larger key than a record of
    [top_]; [cutoffs_] is empty. *)
Theorem quickSelectRank_leaves_top_first (players : list Player) :
  (Z.of_nat (length players) ≤ Offline.INT_MAX)%Z →
  ∃ r rest,
    Offline.quickSelectRank players = Ok (r, top_ r ++ rest) ∧
    top_ r ++ rest ≡ₚ players ∧
    length (top_ r) = length players / 10 ∧
    cutoffs_ r = ∅ ∧
    Sorted key_le (top_ r) ∧
    (∀ x y, x ∈ rest → y ∈ top_ r → key_le x y).
Proof. apply quickSelectRank_state. Qed.

End offline_state.

Lemma heapRank_leaves_heap_and_top_witness :
  ∃ r heap',
    Offline.heapRank twenty_players = Ok (r, heap' ++ top_ r) ∧
    heap' ++ top_ r ≡ₚ twenty_players ∧
    length (top_ r) = length twenty_players / 10 ∧
    cutoffs_ r = ∅ ∧
    is_heap less heap' ∧
    Sorted key_le (top_ r) ∧
    (∀ x y, x ∈ heap' → y ∈ top_ r → key_le x y).
Proof.
  apply (heapRank_leaves_heap_and_top twenty_players); [simpl; lia|by vm_compute].
Defined.

Lemma quickSelectRank_leaves_top_first_witness :
  ∃ r rest,
    Offline.quickSelectRank twenty_players = Ok (r, top_ r ++ rest) ∧
    top_ r ++ rest ≡ₚ twenty_players ∧
    length (top_ r) = length twenty_players / 10 ∧
    cutoffs_ r = ∅ ∧
    Sorted key_le (top_ r) ∧
    (∀ x y, x ∈ rest → y ∈ top_ r → key_le x y).
Proof.
  apply (quickSelectRank_leaves_top_first twenty_players). by vm_compute.
Defined.
